(** * Lyrio problem service: permissions, statement updates, files and tags

    A shallow embedding of [ProblemService] (problem.service.ts).  Entities
    are records, database tables are finite maps keyed by their primary key,
    asynchronous methods that touch the database are computations in a small
    state-and-exception monad over a [World] that keeps the committed
    database, the write set of the open transaction and a log of every
    statement that was issued. *)

From stdpp Require Import gmap strings list sorting.

Open Scope string_scope.
Open Scope Z_scope.

(** ** Entities *)

Abbreviation Locale := string (only parsing).

(** [ProblemPermissionType] of problem.service.ts. *)
Inductive ProblemPermissionType :=
  | VIEW
  | MODIFY
  | MANAGE_PERMISSION
  | MANAGE_PUBLICNESS
  | DELETE.

(** [ProblemPermissionLevel]: [READ = 1], [WRITE = 2]. *)
Inductive ProblemPermissionLevel :=
  | READ
  | WRITE.

Definition levelValue (l : ProblemPermissionLevel) : Z :=
  match l with
  | READ => 1
  | WRITE => 2
  end.

Inductive UserPrivilegeType :=
  | MANAGE_USER
  | MANAGE_USER_GROUP
  | MANAGE_PROBLEM
  | MANAGE_CONTEST
  | MANAGE_DISCUSSION.

Inductive PermissionObjectType :=
  | PROBLEM
  | CONTEST.

#[global] Instance UserPrivilegeType_eq_dec : EqDecision UserPrivilegeType.
Proof. solve_decision. Defined.

#[global] Instance PermissionObjectType_eq_dec : EqDecision PermissionObjectType.
Proof. solve_decision. Defined.

#[global] Instance ProblemPermissionLevel_eq_dec : EqDecision ProblemPermissionLevel.
Proof. solve_decision. Defined.

Module UserEntity.
Record t := mk { id : Z; isAdmin : bool }.
End UserEntity.

Module ProblemEntity.
Record t := mk {
  id : Z;
  displayId : option Z;
  type : string;
  isPublic : bool;
  ownerId : Z;
  locales : list Locale
}.

(** [problem.locales = ls] *)
Definition withLocales (p : t) (ls : list Locale) : t :=
  mk (id p) (displayId p) (type p) (isPublic p) (ownerId p) ls.

(** [problem.displayId = d] *)
Definition withDisplayId (p : t) (d : option Z) : t :=
  mk (id p) d (type p) (isPublic p) (ownerId p) (locales p).
End ProblemEntity.

Module ProblemTagEntity.
Record t := mk { id : Z; color : string; locales : list Locale }.
End ProblemTagEntity.

(** ** Permission resolver *)

(** The three preference flags read through [configService.config.preference]. *)
Record Preference := {
  allowOwnerManageProblemPermission : bool;
  allowOwnerDeleteProblem : bool;
  allowEveryoneCreateProblem : bool
}.

Inductive SubjectKind :=
  | SubjectUser
  | SubjectGroup.

(** Modelled from the spec: the permission grant of the data model, a tuple
    (subjectId, subjectKind, objectId, objectKind, level); the entity behind
    [PermissionService] is not part of this file's source. *)
Record PermissionGrant := {
  subjectId : Z;
  subjectKind : SubjectKind;
  objectId : Z;
  objectKind : PermissionObjectType;
  level : ProblemPermissionLevel
}.

(** Modelled from the spec: the identity and ACL collaborators' storage, the
    grants, the (userId, groupId) memberships and the (userId, privilege)
    rows. *)
Record AccessStore := {
  grants : list PermissionGrant;
  memberships : list (Z * Z);
  privileges : list (Z * UserPrivilegeType)
}.

(** Modelled from the spec: [UserPrivilegeService.userHasPrivilege], the
    privilege check [hasPrivilege(user, privilegeKind) -> bool]. *)
Definition userHasPrivilege (acl : AccessStore) (user : UserEntity.t)
    (privilege : UserPrivilegeType) : bool :=
  bool_decide ((UserEntity.id user, privilege) ∈ privileges acl).

(** A grant speaks for [user] when it names the user, or a group the user
    belongs to. *)
Definition grantCovers (acl : AccessStore) (user : UserEntity.t)
    (g : PermissionGrant) : bool :=
  match subjectKind g with
  | SubjectUser => bool_decide (subjectId g = UserEntity.id user)
  | SubjectGroup => bool_decide ((UserEntity.id user, subjectId g) ∈ memberships acl)
  end.

Definition grantOn (obj : Z) (kind : PermissionObjectType) (g : PermissionGrant) : bool :=
  bool_decide (objectId g = obj) && bool_decide (objectKind g = kind).

(** The highest level among the grants that cover the user on the object;
    0 when there is none. *)
Definition maxGrantedLevel (acl : AccessStore) (user : UserEntity.t)
    (obj : Z) (kind : PermissionObjectType) : Z :=
  foldr Z.max 0
    (levelValue ∘ level <$>
       List.filter (λ g, grantCovers acl user g && grantOn obj kind g) (grants acl)).

(** Modelled from the spec: [PermissionService.userOrItsGroupsHavePermission],
    the ACL check that unions the direct grants with the grants of every
    group of the user, takes the maximum level found and compares it with the
    level required. *)
Definition userOrItsGroupsHavePermission (acl : AccessStore) (user : UserEntity.t)
    (obj : Z) (kind : PermissionObjectType) (required : ProblemPermissionLevel) : bool :=
  bool_decide (levelValue required ≤ maxGrantedLevel acl user obj kind).

(** [ProblemService.userHasPermission].  [user] is [None] for the falsy
    (absent) user of the source. *)
Definition userHasPermission (acl : AccessStore) (preference : Preference)
    (user : option UserEntity.t) (problem : ProblemEntity.t)
    (type : ProblemPermissionType) : bool :=
  match type with
  | VIEW =>
      if ProblemEntity.isPublic problem then true
      else match user with
      | None => false
      | Some user =>
          if bool_decide (UserEntity.id user = ProblemEntity.ownerId problem) then true
          else if UserEntity.isAdmin user then true
          else if userHasPrivilege acl user MANAGE_PROBLEM then true
          else userOrItsGroupsHavePermission acl user (ProblemEntity.id problem) PROBLEM READ
      end
  | MODIFY =>
      match user with
      | None => false
      | Some user =>
          if bool_decide (UserEntity.id user = ProblemEntity.ownerId problem) then true
          else if UserEntity.isAdmin user then true
          else if userHasPrivilege acl user MANAGE_PROBLEM then true
          else userOrItsGroupsHavePermission acl user (ProblemEntity.id problem) PROBLEM WRITE
      end
  | MANAGE_PERMISSION =>
      match user with
      | None => false
      | Some user =>
          if bool_decide (UserEntity.id user = ProblemEntity.ownerId problem)
             && allowOwnerManageProblemPermission preference then true
          else if UserEntity.isAdmin user then true
          else if userHasPrivilege acl user MANAGE_PROBLEM then true
          else false
      end
  | MANAGE_PUBLICNESS =>
      match user with
      | None => false
      | Some user =>
          if UserEntity.isAdmin user then true
          else if userHasPrivilege acl user MANAGE_PROBLEM then true
          else false
      end
  | DELETE =>
      match user with
      | None => false
      | Some user =>
          if bool_decide (UserEntity.id user = ProblemEntity.ownerId problem)
             && allowOwnerDeleteProblem preference then true
          else if UserEntity.isAdmin user then true
          else if userHasPrivilege acl user MANAGE_PROBLEM then true
          else false
      end
  end.

(** [ProblemService.userHasCreateProblemPermission]. *)
Definition userHasCreateProblemPermission (acl : AccessStore) (preference : Preference)
    (user : option UserEntity.t) : bool :=
  match user with
  | None => false
  | Some user =>
      if allowEveryoneCreateProblem preference then true
      else userHasPrivilege acl user MANAGE_PROBLEM
  end.

(** The rule table of the specification read as a decision list: the first
    rule whose condition holds gives the verdict, [otherwise] when none
    does. *)
Fixpoint firstTrueWins (rules : list (bool * bool)) (otherwise : bool) : bool :=
  match rules with
  | [] => otherwise
  | (condition, verdict) :: rest =>
      if condition then verdict else firstTrueWins rest otherwise
  end.

Definition actorAbsent (user : option UserEntity.t) : bool :=
  match user with None => true | Some _ => false end.

Definition actorIs (user : option UserEntity.t) (P : UserEntity.t → bool) : bool :=
  match user with None => false | Some u => P u end.

Definition allow := true.
Definition deny := false.

(** ** Tables and statements *)

Inductive LocalizedContentType :=
  | PROBLEM_TITLE
  | PROBLEM_CONTENT
  | PROBLEM_TAG_NAME.

#[global] Instance LocalizedContentType_eq_dec : EqDecision LocalizedContentType.
Proof. solve_decision. Defined.

#[global] Instance LocalizedContentType_countable : Countable LocalizedContentType.
Proof.
  refine (inj_countable'
    (λ t, match t with PROBLEM_TITLE => 0%nat | PROBLEM_CONTENT => 1%nat | PROBLEM_TAG_NAME => 2%nat end)
    (λ n, match n with 0%nat => PROBLEM_TITLE | 1%nat => PROBLEM_CONTENT | _ => PROBLEM_TAG_NAME end) _).
  by intros [].
Defined.

(** The values of the string enum [ProblemFileType] are kept as strings. *)
Abbreviation ProblemFileType := string (only parsing).

Record ProblemContentSection := {
  sectionName : string;
  text : string
}.

(** [ProblemSampleData]: the ordered (input, output) pairs. *)
Abbreviation ProblemSampleData := (list (string * string)) (only parsing).

(** [ProblemJudgeInfo] is an opaque blob for this service. *)
Abbreviation ProblemJudgeInfo := string (only parsing).

(** One localized entry of [ProblemStatementDto]. *)
Record ProblemLocalizedContentDto := {
  locale : Locale;
  title : string;
  contentSections : list ProblemContentSection
}.

Record ProblemStatementDto := {
  localizedContents : list ProblemLocalizedContentDto;
  samples : ProblemSampleData
}.

(** One localized entry of [UpdateProblemStatementRequestDto]; [None] is the
    [null] that the update tests with [!= null]. *)
Record UpdateLocalizedContentDto := {
  updateLocale : Locale;
  updateTitle : option string;
  updateContentSections : option (list ProblemContentSection)
}.

Record UpdateProblemStatementRequestDto := {
  requestLocalizedContents : list UpdateLocalizedContentDto;
  requestSamples : option ProblemSampleData
}.

(** Modelled from the spec: a row of the File Reference Store, which is keyed
    by content hash and hands out the content handle [uuid]. *)
Record FileEntity := {
  uuid : string;
  referenceCount : Z
}.

(** The tables the service touches.  A table with a primary key is a finite
    map from the key; the tag associations are a bag of
    (problemId, problemTagId) rows. *)
Record Database := {
  problemTable : gmap Z ProblemEntity.t;
  problemTagTable : gmap Z ProblemTagEntity.t;
  problemJudgeInfoTable : gmap Z string;
  problemSampleTable : gmap Z (list (string * string));
  localizedContentTable : gmap (Z * LocalizedContentType * string) string;
  problemTagMapTable : list (Z * Z);
  problemFileTable : gmap (Z * string * string) string;
  fileTable : gmap string FileEntity
}.

Definition emptyDatabase : Database :=
  Build_Database ∅ ∅ ∅ ∅ ∅ [] ∅ ∅.

Definition setProblemTable (f : gmap Z ProblemEntity.t → gmap Z ProblemEntity.t)
    (db : Database) : Database :=
  Build_Database (f (problemTable db)) (problemTagTable db) (problemJudgeInfoTable db)
    (problemSampleTable db) (localizedContentTable db) (problemTagMapTable db)
    (problemFileTable db) (fileTable db).

Definition setProblemJudgeInfoTable (f : gmap Z string → gmap Z string)
    (db : Database) : Database :=
  Build_Database (problemTable db) (problemTagTable db) (f (problemJudgeInfoTable db))
    (problemSampleTable db) (localizedContentTable db) (problemTagMapTable db)
    (problemFileTable db) (fileTable db).

Definition setProblemSampleTable
    (f : gmap Z (list (string * string)) → gmap Z (list (string * string)))
    (db : Database) : Database :=
  Build_Database (problemTable db) (problemTagTable db) (problemJudgeInfoTable db)
    (f (problemSampleTable db)) (localizedContentTable db) (problemTagMapTable db)
    (problemFileTable db) (fileTable db).

Definition setLocalizedContentTable
    (f : gmap (Z * LocalizedContentType * string) string →
         gmap (Z * LocalizedContentType * string) string)
    (db : Database) : Database :=
  Build_Database (problemTable db) (problemTagTable db) (problemJudgeInfoTable db)
    (problemSampleTable db) (f (localizedContentTable db)) (problemTagMapTable db)
    (problemFileTable db) (fileTable db).

Definition setProblemTagMapTable (f : list (Z * Z) → list (Z * Z))
    (db : Database) : Database :=
  Build_Database (problemTable db) (problemTagTable db) (problemJudgeInfoTable db)
    (problemSampleTable db) (localizedContentTable db) (f (problemTagMapTable db))
    (problemFileTable db) (fileTable db).

Definition setProblemFileTable
    (f : gmap (Z * string * string) string → gmap (Z * string * string) string)
    (db : Database) : Database :=
  Build_Database (problemTable db) (problemTagTable db) (problemJudgeInfoTable db)
    (problemSampleTable db) (localizedContentTable db) (problemTagMapTable db)
    (f (problemFileTable db)) (fileTable db).

Definition setFileTable (f : gmap string FileEntity → gmap string FileEntity)
    (db : Database) : Database :=
  Build_Database (problemTable db) (problemTagTable db) (problemJudgeInfoTable db)
    (problemSampleTable db) (localizedContentTable db) (problemTagMapTable db)
    (problemFileTable db) (f (fileTable db)).

(** The write statements the service sends to the database. *)
Inductive Statement :=
  | SaveProblem (problem : ProblemEntity.t)
  | SaveProblemJudgeInfo (problemId : Z) (judgeInfo : string)
  | SaveProblemSample (problemId : Z) (data : list (string * string))
  | UpsertLocalizedContent (objectId : Z) (type : LocalizedContentType)
      (locale : string) (data : string)
  | DeleteLocalizedContent (objectId : Z) (type : LocalizedContentType)
      (locale : option string)
  | DeleteProblemTagMaps (problemId : Z)
  | InsertProblemTagMaps (rows : list (Z * Z))
  | SaveProblemFile (problemId : Z) (type filename fileUuid : string)
  | UpdateProblemFilename (problemId : Z) (type filename fileUuid newFilename : string)
  | IncrementFileReference (sha256 : string)
  | DecrementFileReference (fileUuid : string).

(** Releasing one reference of the content with handle [u]; the row goes
    when its count reaches zero. *)
Definition releaseReference (u : string) (f : FileEntity) : option FileEntity :=
  if bool_decide (uuid f = u) then
    if bool_decide (referenceCount f ≤ 1) then None
    else Some {| uuid := uuid f; referenceCount := referenceCount f - 1 |}
  else Some f.

Definition acquireReference (f : FileEntity) : FileEntity :=
  {| uuid := uuid f; referenceCount := referenceCount f + 1 |}.

(** The effect of a statement that the database accepted. *)
Definition applyStatement (s : Statement) (db : Database) : Database :=
  match s with
  | SaveProblem problem =>
      setProblemTable (insert (ProblemEntity.id problem) problem) db
  | SaveProblemJudgeInfo problemId judgeInfo =>
      setProblemJudgeInfoTable (insert problemId judgeInfo) db
  | SaveProblemSample problemId data =>
      setProblemSampleTable (insert problemId data) db
  | UpsertLocalizedContent objectId type locale data =>
      setLocalizedContentTable (insert (objectId, type, locale) data) db
  | DeleteLocalizedContent objectId type (Some locale) =>
      setLocalizedContentTable (delete (objectId, type, locale)) db
  | DeleteLocalizedContent objectId type None =>
      setLocalizedContentTable
        (filter (λ kv, ¬ (kv.1.1.1 = objectId ∧ kv.1.1.2 = type))) db
  | DeleteProblemTagMaps problemId =>
      setProblemTagMapTable (List.filter (λ row, bool_decide (row.1 ≠ problemId))) db
  | InsertProblemTagMaps rows =>
      setProblemTagMapTable (λ table, (table ++ rows)%list) db
  | SaveProblemFile problemId type filename fileUuid =>
      setProblemFileTable (insert (problemId, type, filename) fileUuid) db
  | UpdateProblemFilename problemId type filename fileUuid newFilename =>
      match problemFileTable db !! (problemId, type, filename) with
      | Some u =>
          if bool_decide (u = fileUuid) then
            setProblemFileTable
              (λ table, <[(problemId, type, newFilename) := u]>
                          (delete (problemId, type, filename) table)) db
          else db
      | None => db
      end
  | IncrementFileReference sha256 =>
      setFileTable (alter acquireReference sha256) db
  | DecrementFileReference fileUuid =>
      setFileTable (omap (releaseReference fileUuid)) db
  end.

Inductive Error :=
  | ER_DUP_ENTRY
  | StorageFailure
  | TypeError.

#[global] Instance Error_eq_dec : EqDecision Error.
Proof. solve_decision. Defined.

(** Modelled from the spec: at most one problem has a given non-null
    [displayId], which the storage enforces with a uniqueness constraint
    (the entity declaration is not part of this file's source).  Another
    problem row already holds the non-null display id of [problem]. *)
Definition displayIdTaken (problem : ProblemEntity.t) (db : Database) : bool :=
  bool_decide (map_Exists
    (λ k q, k ≠ ProblemEntity.id problem
            ∧ is_Some (ProblemEntity.displayId problem)
            ∧ ProblemEntity.displayId q = ProblemEntity.displayId problem)
    (problemTable db)).

(** Modelled from the spec: the constraint a statement breaks on a given
    database state, if any: the uniqueness of the display id, and the key
    (problemId, type, filename) of the problem files, of which the filename
    is a part ("filename is a PRIMARY key" in [renameProblemFile]). *)
Definition rejects (s : Statement) (db : Database) : option Error :=
  match s with
  | SaveProblem problem =>
      if displayIdTaken problem db then Some ER_DUP_ENTRY else None
  | UpdateProblemFilename problemId type filename fileUuid newFilename =>
      if bool_decide (newFilename ≠ filename
                      ∧ problemFileTable db !! (problemId, type, filename) = Some fileUuid
                      ∧ is_Some (problemFileTable db !! (problemId, type, newFilename)))
      then Some ER_DUP_ENTRY else None
  | _ => None
  end.

(** ** The world and its computations *)

(** Which connection carries a statement: the entity manager of the open
    transaction, or a repository of the service, whose statements commit on
    their own. *)
Inductive Manager :=
  | Transactional
  | Repository.

(** [committed] is what every connection sees; [pending] is the write set of
    the open transaction; [issued] logs every statement sent, with its
    manager; [faultAfter = Some n] makes the storage raise one failure on
    the statement that follows [n] accepted ones; [nextProblemId] is the
    auto-increment counter of the problem table. *)
Record World := {
  committed : Database;
  pending : list Statement;
  issued : list (Manager * Statement);
  faultAfter : option nat;
  nextProblemId : Z
}.

Inductive Outcome (A : Type) :=
  | Return (a : A)
  | Throw (e : Error).

Arguments Return {A} a.
Arguments Throw {A} e.

Definition M (A : Type) : Type := World → Outcome A * World.

Definition ret {A} (a : A) : M A := λ w, (Return a, w).

Definition bind {A B} (m : M A) (k : A → M B) : M B := λ w,
  match m w with
  | (Return a, w') => k a w'
  | (Throw e, w') => (Throw e, w')
  end.

Definition throw {A} (e : Error) : M A := λ w, (Throw e, w).

(** [try { m } catch (e) { handler e }] *)
Definition tryCatch {A} (m : M A) (handler : Error → M A) : M A := λ w,
  match m w with
  | (Return a, w') => (Return a, w')
  | (Throw e, w') => handler e w'
  end.

Declare Scope service_scope.
Delimit Scope service_scope with service.

Notation "x ← y ; z" := (bind y (λ x, z))
  (at level 20, y at level 100, z at level 200, only parsing) : service_scope.
Notation "x ;; z" := (bind x (λ _, z))
  (at level 100, z at level 200, only parsing, right associativity) : service_scope.

Open Scope service_scope.

(** What a connection reads: the transaction sees its own writes on top of
    the committed rows. *)
Definition view (m : Manager) (w : World) : Database :=
  match m with
  | Transactional => foldl (λ db s, applyStatement s db) (committed w) (pending w)
  | Repository => committed w
  end.

Definition logStatement (m : Manager) (s : Statement) (w : World) : World :=
  {| committed := committed w; pending := pending w;
     issued := issued w ++ [(m, s)]; faultAfter := faultAfter w;
     nextProblemId := nextProblemId w |}.

Definition setFaultAfter (f : option nat) (w : World) : World :=
  {| committed := committed w; pending := pending w; issued := issued w;
     faultAfter := f; nextProblemId := nextProblemId w |}.

Definition setPending (p : list Statement) (w : World) : World :=
  {| committed := committed w; pending := p; issued := issued w;
     faultAfter := faultAfter w; nextProblemId := nextProblemId w |}.

Definition setCommitted (db : Database) (w : World) : World :=
  {| committed := db; pending := pending w; issued := issued w;
     faultAfter := faultAfter w; nextProblemId := nextProblemId w |}.

Definition store (m : Manager) (s : Statement) (w : World) : World :=
  match m with
  | Transactional => setPending (pending w ++ [s]) w
  | Repository => setCommitted (applyStatement s (committed w)) w
  end.

(** Sending one write statement. *)
Definition execute (m : Manager) (s : Statement) : M () := λ w,
  let w := logStatement m s w in
  match faultAfter w with
  | Some O => (Throw StorageFailure, setFaultAfter None w)
  | fault =>
      let w := setFaultAfter (pred <$> fault) w in
      match rejects s (view m w) with
      | Some e => (Throw e, w)
      | None => (Return (), store m s w)
      end
  end.

(** A read through the given connection. *)
Definition query {A} (m : Manager) (read : Database → A) : M A := λ w,
  (Return (read (view m w)), w).

(** [connection.transaction(..., async transactionalEntityManager => body)]:
    the writes of [Transactional] statements reach the committed rows when
    the body returns and are dropped when it throws. *)
Definition transaction {A} (body : M A) : M A := λ w,
  match body (setPending [] w) with
  | (Return a, w') => (Return a, setPending [] (setCommitted (view Transactional w') w'))
  | (Throw e, w') => (Throw e, setPending [] w')
  end.

(** [for (const x of xs) body] *)
Fixpoint forEach {A} (xs : list A) (body : A → M ()) : M () :=
  match xs with
  | [] => ret ()
  | x :: rest => body x ;; forEach rest body
  end.

(** The entity gets its id when it is first saved. *)
Definition freshProblemId : M Z := λ w,
  (Return (nextProblemId w),
   {| committed := committed w; pending := pending w; issued := issued w;
      faultAfter := faultAfter w; nextProblemId := nextProblemId w + 1 |}).

(** ** Collaborators *)

Module LocalizedContentService.

(** Modelled from the spec: [createOrUpdate(ownerId, kind, locale, text, tx?)]
    of the Localized Content Store, an upsert sent through the transaction's
    manager when one is passed and through the store's own repository
    otherwise. *)
Definition createOrUpdate (objectId : Z) (type : LocalizedContentType)
    (locale : string) (data : string)
    (transactionalEntityManager : option Manager) : M () :=
  execute (default Repository transactionalEntityManager)
    (UpsertLocalizedContent objectId type locale data).

(** Modelled from the spec: [delete(ownerId, kind, locale|null, tx?)] of the
    Localized Content Store; a null locale means all locales. *)
Definition delete (objectId : Z) (type : LocalizedContentType)
    (locale : option string)
    (transactionalEntityManager : option Manager) : M () :=
  execute (default Repository transactionalEntityManager)
    (DeleteLocalizedContent objectId type locale).

End LocalizedContentService.

Module FileService.

(** Modelled from the spec: [tryReference(contentHash, tx) -> handle|null] of
    the File Reference Store: nothing when the content is unknown, otherwise
    one more reference on it and its handle. *)
Definition tryReferenceFile (sha256 : string)
    (transactionalEntityManager : Manager) : M (option string) :=
  file ← query transactionalEntityManager (λ db, fileTable db !! sha256);
  match file with
  | None => ret None
  | Some file =>
      execute transactionalEntityManager (IncrementFileReference sha256);;
      ret (Some (uuid file))
  end.

(** Modelled from the spec: [dereference(handle, tx) -> void] of the File
    Reference Store. *)
Definition dereferenceFile (fileUuid : string)
    (transactionalEntityManager : Manager) : M () :=
  execute transactionalEntityManager (DecrementFileReference fileUuid).

End FileService.

(** ** The problem service *)

(** [Array.from(new Set(ids))]: the distinct ids in order of first
    occurrence. *)
Fixpoint arrayFromSet (ids : list Z) : list Z :=
  match ids with
  | [] => []
  | x :: rest => x :: List.filter (λ y, bool_decide (y ≠ x)) (arrayFromSet rest)
  end.

(** [repository.findByIds(ids)]: the rows whose id is one of [ids]. *)
Definition findByIds {A} (getId : A → Z) (table : gmap Z A) (ids : list Z) : list A :=
  List.filter (λ record, bool_decide (getId record ∈ ids)) (snd <$> map_to_list table).

(** [Object.fromEntries(records.map(record => [record.id, record]))]; a later
    entry with the same key replaces an earlier one.  The property key of a
    number is its decimal string, which is one-to-one on integer ids, so the
    object is a map from ids. *)
Definition fromEntries {A} (getId : A → Z) (records : list A) : gmap Z A :=
  foldl (λ map record, <[getId record := record]> map) ∅ records.

(** The body shared by [findProblemsByExistingIds] and
    [findProblemTagsByExistingIds]; [None] in the result is [undefined]. *)
Definition findByExistingIds {A} (getId : A → Z) (table : Database → gmap Z A)
    (ids : list Z) : M (list (option A)) :=
  if bool_decide (length ids = 0%nat) then ret []
  else
    let uniqueIds := arrayFromSet ids in
    records ← query Repository (λ db, findByIds getId (table db) uniqueIds);
    let map := fromEntries getId records in
    ret ((λ problemId, map !! problemId) <$> ids).

Definition findProblemsByExistingIds (problemIds : list Z)
    : M (list (option ProblemEntity.t)) :=
  findByExistingIds ProblemEntity.id problemTable problemIds.

Definition findProblemTagsByExistingIds (problemTagIds : list Z)
    : M (list (option ProblemTagEntity.t)) :=
  findByExistingIds ProblemTagEntity.id problemTagTable problemTagIds.

(** [ProblemService.setProblemTags] *)
Definition setProblemTags (problem : ProblemEntity.t)
    (problemTags : list ProblemTagEntity.t)
    (transactionalEntityManager : Manager) : M () :=
  execute transactionalEntityManager (DeleteProblemTagMaps (ProblemEntity.id problem));;
  if bool_decide (length problemTags = 0%nat) then ret ()
  else
    execute transactionalEntityManager
      (InsertProblemTagMaps
         ((λ problemTag, (ProblemEntity.id problem, ProblemTagEntity.id problemTag))
            <$> problemTags)).

(** [!displayId] on a number or null: null and 0 are falsy. *)
Definition falsy (displayId : option Z) : bool :=
  match displayId with
  | None => true
  | Some n => bool_decide (n = 0)
  end.

(** [problemRepository.count({ displayId })]; a null display id in the
    condition selects the rows without one. *)
Definition countByDisplayId (displayId : option Z) (db : Database) : nat :=
  length (List.filter (λ kv, bool_decide (ProblemEntity.displayId kv.2 = displayId))
            (map_to_list (problemTable db))).

(** [ProblemService.setProblemDisplayId] *)
Definition setProblemDisplayId (problem : ProblemEntity.t) (displayId : option Z) : M bool :=
  let displayId := if falsy displayId then None else displayId in
  if bool_decide (ProblemEntity.displayId problem = displayId) then ret true
  else
    tryCatch
      (let problem := ProblemEntity.withDisplayId problem displayId in
       execute Repository (SaveProblem problem);;
       ret true)
      (λ e,
         n ← query Repository (countByDisplayId displayId);
         if bool_decide (n ≠ 0%nat) then ret false
         else throw e).

(** [!uuid] on a string or null: null and the empty string are falsy. *)
Definition falsyHandle (fileUuid : option string) : bool :=
  match fileUuid with
  | None => true
  | Some u => bool_decide (u = EmptyString)
  end.

(** [ProblemService.addProblemFile].  The body returns false on a falsy
    handle without throwing, so the transaction commits what
    [tryReferenceFile] wrote. *)
Definition addProblemFile (problem : ProblemEntity.t) (sha256 : string)
    (type : ProblemFileType) (filename : string) : M bool :=
  transaction (
    fileUuid ← FileService.tryReferenceFile sha256 Transactional;
    if falsyHandle fileUuid then ret false
    else
      let fileUuid := default EmptyString fileUuid in
      problemFile ← query Repository
        (λ db, problemFileTable db !! (ProblemEntity.id problem, type, filename));
      match problemFile with
      | Some oldUuid => FileService.dereferenceFile oldUuid Transactional
      | None => ret ()
      end;;
      execute Transactional
        (SaveProblemFile (ProblemEntity.id problem) type filename fileUuid);;
      ret true).

(** [ProblemService.renameProblemFile] *)
Definition renameProblemFile (problem : ProblemEntity.t) (type : ProblemFileType)
    (filename newFilename : string) : M bool :=
  problemFile ← query Repository
    (λ db, problemFileTable db !! (ProblemEntity.id problem, type, filename));
  match problemFile with
  | None => ret false
  | Some fileUuid =>
      execute Repository
        (UpdateProblemFilename (ProblemEntity.id problem) type filename fileUuid newFilename);;
      ret true
  end.

Section StatementOperations.

(** [JSON.stringify] on content sections, and
    [ProblemJudgeInfoService.getDefaultJudgeInfo]. *)
Variable JSON_stringify : list ProblemContentSection → string.
Variable getDefaultJudgeInfo : string → string.

(** [ProblemService.createProblem] *)
Definition createProblem (owner : UserEntity.t) (type : string)
    (statement : ProblemStatementDto) (tags : list ProblemTagEntity.t)
    : M ProblemEntity.t :=
  transaction (
    id ← freshProblemId;
    let problem :=
      ProblemEntity.mk id None type false (UserEntity.id owner)
        (locale <$> localizedContents statement) in
    execute Transactional (SaveProblem problem);;
    execute Transactional
      (SaveProblemJudgeInfo (ProblemEntity.id problem) (getDefaultJudgeInfo type));;
    execute Transactional
      (SaveProblemSample (ProblemEntity.id problem) (samples statement));;
    forEach (localizedContents statement) (λ localizedContent,
      LocalizedContentService.createOrUpdate (ProblemEntity.id problem) PROBLEM_TITLE
        (locale localizedContent) (title localizedContent) (Some Transactional);;
      LocalizedContentService.createOrUpdate (ProblemEntity.id problem) PROBLEM_CONTENT
        (locale localizedContent) (JSON_stringify (contentSections localizedContent))
        (Some Transactional));;
    setProblemTags problem tags Transactional;;
    ret problem).

(** [newLocales.includes(locale)] *)
Definition includes (ls : list string) (l : string) : bool := bool_decide (l ∈ ls).

(** [ProblemService.updateProblemStatement] *)
Definition updateProblemStatement (problem : ProblemEntity.t)
    (request : UpdateProblemStatementRequestDto) (tags : list ProblemTagEntity.t)
    : M bool :=
  transaction (
    match requestSamples request with
    | Some data =>
        problemSample ← query Transactional
          (λ db, problemSampleTable db !! ProblemEntity.id problem);
        match problemSample with
        | None => throw TypeError
        | Some _ => execute Transactional (SaveProblemSample (ProblemEntity.id problem) data)
        end
    | None => ret ()
    end;;
    let newLocales := updateLocale <$> requestLocalizedContents request in
    let deletingLocales :=
      List.filter (λ l, negb (includes newLocales l)) (ProblemEntity.locales problem) in
    forEach deletingLocales (λ deletingLocale,
      LocalizedContentService.delete (ProblemEntity.id problem) PROBLEM_TITLE
        (Some deletingLocale) (Some Transactional);;
      LocalizedContentService.delete (ProblemEntity.id problem) PROBLEM_CONTENT
        (Some deletingLocale) (Some Transactional));;
    let problem := ProblemEntity.withLocales problem newLocales in
    forEach (requestLocalizedContents request) (λ localizedContent,
      match updateTitle localizedContent with
      | Some title =>
          LocalizedContentService.createOrUpdate (ProblemEntity.id problem) PROBLEM_TITLE
            (updateLocale localizedContent) title None
      | None => ret ()
      end;;
      match updateContentSections localizedContent with
      | Some sections =>
          LocalizedContentService.createOrUpdate (ProblemEntity.id problem) PROBLEM_CONTENT
            (updateLocale localizedContent) (JSON_stringify sections) None
      | None => ret ()
      end);;
    setProblemTags problem tags Transactional;;
    execute Transactional (SaveProblem problem));;
  ret true.

End StatementOperations.

(** ** Predicates used to state the properties *)

#[global] Instance SubjectKind_eq_dec : EqDecision SubjectKind.
Proof. solve_decision. Defined.

(** READ-or-higher: WRITE satisfies a READ requirement. *)
Definition readOrHigher (l : ProblemPermissionLevel) : Prop := l = READ ∨ l = WRITE.

Definition holdsReadOrHigherEntry (acl : AccessStore) (user : UserEntity.t) (problemId : Z) : Prop :=
  Exists (λ g,
      (subjectKind g = SubjectUser ∧ subjectId g = UserEntity.id user
       ∨ subjectKind g = SubjectGroup ∧ (UserEntity.id user, subjectId g) ∈ memberships acl)
      ∧ objectId g = problemId ∧ objectKind g = PROBLEM
      ∧ readOrHigher (level g))
    (grants acl).

#[global] Instance readOrHigher_dec l : Decision (readOrHigher l).
Proof. unfold readOrHigher. apply _. Defined.

#[global] Instance holdsReadOrHigherEntry_dec acl user problemId :
  Decision (holdsReadOrHigherEntry acl user problemId).
Proof. unfold holdsReadOrHigherEntry. apply _. Defined.


(** [result] answers [ids] position by position from the rows of [table]:
    same length, the i-th element is a row whose id is the i-th id, or
    [None] (undefined) when no row has that id; equal ids get equal
    answers; no ids, no answers. *)
Definition answersById {A} (getId : A → Z) (table : gmap Z A) (ids : list Z)
    (result : list (option A)) : Prop :=
  length result = length ids
  ∧ (∀ (i : nat) (id : Z), ids !! i = Some id →
       ∃ o, result !! i = Some o
            ∧ match o with
              | Some r => getId r = id ∧ ∃ k, table !! k = Some r
              | None => ∀ k row, table !! k = Some row → getId row ≠ id
              end)
  ∧ (∀ i j : nat, ids !! i = ids !! j → result !! i = result !! j)
  ∧ (ids = [] → result = []).

(** ** Accepted statements *)

(** The world after the storage accepted statement [c.2] on connection
    [c.1], and after it accepted a sequence of them. *)
Definition accept (w : World) (c : Manager * Statement) : World :=
  store c.1 c.2 (logStatement c.1 c.2 w).

Definition acceptAll (cmds : list (Manager * Statement)) (w : World) : World :=
  foldl accept w cmds.

Definition applyAll (stmts : list Statement) (db : Database) : Database :=
  foldl (λ db s, applyStatement s db) db stmts.

(** The statements of a log that went through a given connection. *)
Definition sentThrough (m : Manager) (cmds : list (Manager * Statement)) : list Statement :=
  snd <$> List.filter (λ c, match c.1, m with
                            | Transactional, Transactional | Repository, Repository => true
                            | _, _ => false
                            end) cmds.

(** The association rows [setProblemTags] builds from the tags. *)
Definition tagMapRows (problem : ProblemEntity.t) (problemTags : list ProblemTagEntity.t)
    : list (Z * Z) :=
  (λ problemTag, (ProblemEntity.id problem, ProblemTagEntity.id problemTag)) <$> problemTags.

(** The statements [setProblemTags] sends when the storage accepts them. *)
Definition tagStatements (problem : ProblemEntity.t) (problemTags : list ProblemTagEntity.t)
    : list Statement :=
  DeleteProblemTagMaps (ProblemEntity.id problem)
  :: match problemTags with
     | [] => []
     | _ => [InsertProblemTagMaps (tagMapRows problem problemTags)]
     end.

(** Statements that leave the problem rows, or the localized rows, alone. *)
Definition keepsProblems (s : Statement) : Prop :=
  ∀ db, problemTable (applyStatement s db) = problemTable db.

Definition keepsContents (s : Statement) : Prop :=
  ∀ db, localizedContentTable (applyStatement s db) = localizedContentTable db.

(** ** Statements of a statement update *)

(** The title and content rows of locale [l] of object [pid] both exist. *)
Definition hasStatement (db : Database) (pid : Z) (l : string) : Prop :=
  is_Some (localizedContentTable db !! (pid, PROBLEM_TITLE, l))
  ∧ is_Some (localizedContentTable db !! (pid, PROBLEM_CONTENT, l)).

(** The invariant of the data model: the [locales] of every stored problem
    are the locales that have both a title row and a content row. *)
Definition localesInvariant (db : Database) : Prop :=
  ∀ k p, problemTable db !! k = Some p →
    ∀ l, l ∈ ProblemEntity.locales p ↔ hasStatement db k l.

Definition newLocalesOf (request : UpdateProblemStatementRequestDto) : list string :=
  updateLocale <$> requestLocalizedContents request.

Definition deletingLocalesOf (problem : ProblemEntity.t)
    (request : UpdateProblemStatementRequestDto) : list string :=
  List.filter (λ l, negb (bool_decide (l ∈ newLocalesOf request)))
    (ProblemEntity.locales problem).

Definition sampleStatements (problem : ProblemEntity.t)
    (request : UpdateProblemStatementRequestDto) : list Statement :=
  match requestSamples request with
  | Some data => [SaveProblemSample (ProblemEntity.id problem) data]
  | None => []
  end.

Definition deletesOf (pid : Z) (l : string) : list Statement :=
  [DeleteLocalizedContent pid PROBLEM_TITLE (Some l);
   DeleteLocalizedContent pid PROBLEM_CONTENT (Some l)].

Section StatementLists.

Variable JSON_stringify : list ProblemContentSection → string.

(** What an entry of the request asks to store for a content type. *)
Definition requested (type : LocalizedContentType) (e : UpdateLocalizedContentDto)
    : option string :=
  match type with
  | PROBLEM_TITLE => updateTitle e
  | PROBLEM_CONTENT => JSON_stringify <$> updateContentSections e
  | PROBLEM_TAG_NAME => None
  end.

Definition upsertsOf (pid : Z) (e : UpdateLocalizedContentDto) : list Statement :=
  (match updateTitle e with
   | Some title => [UpsertLocalizedContent pid PROBLEM_TITLE (updateLocale e) title]
   | None => []
   end
   ++ match updateContentSections e with
      | Some sections =>
          [UpsertLocalizedContent pid PROBLEM_CONTENT (updateLocale e)
             (JSON_stringify sections)]
      | None => []
      end)%list.

(** The last non-null value the entries give for locale [l]. *)
Fixpoint lastRequested (type : LocalizedContentType) (l : string)
    (entries : list UpdateLocalizedContentDto) : option string :=
  match entries with
  | [] => None
  | e :: rest =>
      match lastRequested type l rest with
      | Some data => Some data
      | None => if bool_decide (updateLocale e = l) then requested type e else None
      end
  end.

(** The statements of [updateProblemStatement], those of the transaction and
    those of the content upserts. *)
Definition transactionStatements (problem : ProblemEntity.t)
    (request : UpdateProblemStatementRequestDto) (tags : list ProblemTagEntity.t)
    : list Statement :=
  (sampleStatements problem request
   ++ concat (deletesOf (ProblemEntity.id problem) <$> deletingLocalesOf problem request)
   ++ tagStatements problem tags
   ++ [SaveProblem (ProblemEntity.withLocales problem (newLocalesOf request))])%list.

Definition upsertStatements (problem : ProblemEntity.t)
    (request : UpdateProblemStatementRequestDto) : list Statement :=
  concat (upsertsOf (ProblemEntity.id problem) <$> requestLocalizedContents request).

(** A created entry read as an update entry with both fields present. *)
Definition asUpdate (e : ProblemLocalizedContentDto) : UpdateLocalizedContentDto :=
  {| updateLocale := locale e; updateTitle := Some (title e);
     updateContentSections := Some (contentSections e) |}.

End StatementLists.

(** ** Sample worlds *)

Definition problem1 : ProblemEntity.t := ProblemEntity.mk 1 None "Traditional" false 10 ["en"].

Definition problem2 : ProblemEntity.t := ProblemEntity.mk 2 None "Traditional" false 10 ["en"].

(** Nothing stored yet. *)
Definition w_empty : World :=
  {| committed := emptyDatabase; pending := []; issued := []; faultAfter := None;
     nextProblemId := 1 |}.

(** Problem 1 has the test data files a.in and b.in. *)
Definition w_files : World :=
  {| committed :=
       applyStatement (SaveProblemFile 1 "TestData" "b.in" "uuid-b")
         (applyStatement (SaveProblemFile 1 "TestData" "a.in" "uuid-a") emptyDatabase);
     pending := []; issued := []; faultAfter := None; nextProblemId := 2 |}.

(** Problem 1 holds display id 5 and problem 2 has none; [fault] is the
    failure the storage will raise. *)
Definition w_displayId (fault : option nat) : World :=
  {| committed :=
       applyStatement (SaveProblem problem2)
         (applyStatement (SaveProblem (ProblemEntity.mk 1 (Some 5) "Traditional" false 10 ["en"]))
            emptyDatabase);
     pending := []; issued := []; faultAfter := fault; nextProblemId := 3 |}.

Definition exampleStringify (sections : list ProblemContentSection) : string :=
  String.concat ";" ((λ s, sectionName s +:+ ":" +:+ text s) <$> sections).

Definition exampleJudgeInfo (type : string) : string := "{}".

Definition owner10 : UserEntity.t := UserEntity.mk 10 false.

Definition tag7 : ProblemTagEntity.t := ProblemTagEntity.mk 7 "red" ["en"].

Definition statement_en : ProblemStatementDto :=
  {| localizedContents :=
       [ {| locale := "en"; title := "A+B Problem";
            contentSections := [ {| sectionName := "Description"; text := "Add." |} ] |} ];
     samples := [("1 2", "3")] |}.

(** The world after problem 1 was created with an English statement. *)
Definition w_created : World :=
  (createProblem exampleStringify exampleJudgeInfo owner10 "Traditional" statement_en []
     w_empty).2.

(** The request changes the English title and nothing else. *)
Definition request_title_only : UpdateProblemStatementRequestDto :=
  {| requestLocalizedContents :=
       [ {| updateLocale := "en"; updateTitle := Some "Sum of two numbers";
            updateContentSections := None |} ];
     requestSamples := None |}.

(** The request adds a French title without content sections. *)
Definition request_new_locale : UpdateProblemStatementRequestDto :=
  {| requestLocalizedContents :=
       [ {| updateLocale := "en"; updateTitle := None; updateContentSections := None |};
         {| updateLocale := "fr"; updateTitle := Some "Somme de deux nombres";
            updateContentSections := None |} ];
     requestSamples := None |}.

(** ** Further operations of the problem service *)

(** [ProblemService.findProblemById] *)
Definition findProblemById (id : Z) : M (option ProblemEntity.t) :=
  query Repository (λ db, problemTable db !! id).

(** [ProblemService.findProblemByDisplayId]: [findOne] gives the first row
    with that display id, [None] (undefined) when there is none. *)
Definition findProblemByDisplayId (displayId : Z) : M (option ProblemEntity.t) :=
  query Repository (λ db,
    head (List.filter (λ problem, bool_decide (ProblemEntity.displayId problem = Some displayId))
            (snd <$> map_to_list (problemTable db)))).

(** [problem.isPublic = b] *)
Definition withIsPublic (p : ProblemEntity.t) (b : bool) : ProblemEntity.t :=
  ProblemEntity.mk (ProblemEntity.id p) (ProblemEntity.displayId p) (ProblemEntity.type p) b
    (ProblemEntity.ownerId p) (ProblemEntity.locales p).

(** [ProblemService.setProblemPublic] *)
Definition setProblemPublic (problem : ProblemEntity.t) (isPublic : bool) : M () :=
  if bool_decide (ProblemEntity.isPublic problem = isPublic) then ret ()
  else
    let problem := withIsPublic problem isPublic in
    execute Repository (SaveProblem problem).

(** [ProblemService.updateProblemJudgeInfo]; writing [judgeInfo] on the
    undefined result of [findOne] is a TypeError. *)
Definition updateProblemJudgeInfo (problem : ProblemEntity.t) (judgeInfo : string) : M () :=
  problemJudgeInfo ← query Repository
    (λ db, problemJudgeInfoTable db !! ProblemEntity.id problem);
  match problemJudgeInfo with
  | None => throw TypeError
  | Some _ => execute Repository (SaveProblemJudgeInfo (ProblemEntity.id problem) judgeInfo)
  end.

(** Modelled from the spec: [get(ownerId, kind, locale) -> text|null] of the
    Localized Content Store. *)
Definition localizedContentGet (objectId : Z) (type : LocalizedContentType)
    (locale : string) : M (option string) :=
  query Repository (λ db, localizedContentTable db !! (objectId, type, locale)).

(** [ProblemService.getProblemLocalizedTitle] *)
Definition getProblemLocalizedTitle (problem : ProblemEntity.t) (locale : string)
    : M (option string) :=
  localizedContentGet (ProblemEntity.id problem) PROBLEM_TITLE locale.

(** [ProblemService.getProblemTagsByProblem].  The [find] on the association
    rows carries no [ORDER BY]: the storage hands the matching rows back in
    an order of its own choice, [rowOrder]. *)
Definition getProblemTagsByProblem (rowOrder : list (Z * Z) → list (Z * Z))
    (problem : ProblemEntity.t) : M (list (option ProblemTagEntity.t)) :=
  problemTagMaps ← query Repository (λ db,
    rowOrder (List.filter (λ row, bool_decide (row.1 = ProblemEntity.id problem))
                (problemTagMapTable db)));
  findProblemTagsByExistingIds (snd <$> problemTagMaps).

(** The sort key of [queryProblemsAndCount]:
    [displayId IS NOT NULL] descending, [displayId] ascending, [id]
    ascending. *)
Definition problemSortKey (p : ProblemEntity.t) : Z * Z * Z :=
  (match ProblemEntity.displayId p with Some _ => 0 | None => 1 end,
   default 0 (ProblemEntity.displayId p),
   ProblemEntity.id p).

Definition problemOrder (p q : ProblemEntity.t) : Prop :=
  let a := problemSortKey p in
  let b := problemSortKey q in
  a.1.1 < b.1.1
  ∨ (a.1.1 = b.1.1 ∧ (a.1.2 < b.1.2 ∨ (a.1.2 = b.1.2 ∧ a.2 ≤ b.2))).

#[global] Instance problemOrder_dec p q : Decision (problemOrder p q).
Proof. unfold problemOrder. apply _. Defined.




(** Computations that write through the transaction only never change the
    committed rows while they run. *)
Definition keepsCommitted {A} (m : M A) : Prop :=
  ∀ w, committed (m w).2 = committed w.

(** ** Statement lists of further operations *)

Section CreationLists.

Variable JSON_stringify : list ProblemContentSection → string.
Variable getDefaultJudgeInfo : string → string.

(** The statements of [createProblem] for the problem it builds. *)
Definition creationStatements (problem : ProblemEntity.t)
    (statement : ProblemStatementDto) (tags : list ProblemTagEntity.t) : list Statement :=
  ([SaveProblem problem;
    SaveProblemJudgeInfo (ProblemEntity.id problem)
      (getDefaultJudgeInfo (ProblemEntity.type problem));
    SaveProblemSample (ProblemEntity.id problem) (samples statement)]
   ++ concat (upsertsOf JSON_stringify (ProblemEntity.id problem)
                <$> (asUpdate <$> localizedContents statement))
   ++ tagStatements problem tags)%list.

End CreationLists.

(** The statements of [addProblemFile] for content [file] found under
    [sha256]; [old] is the handle the key held before, if any. *)
Definition attachStatements (problem : ProblemEntity.t) (sha256 type filename : string)
    (file : FileEntity) (old : option string) : list Statement :=
  (IncrementFileReference sha256
   :: match old with
      | Some oldUuid => [DecrementFileReference oldUuid]
      | None => []
      end
   ++ [SaveProblemFile (ProblemEntity.id problem) type filename (uuid file)])%list.

(** [db'] differs from [db] at most in the localized content rows whose
    key (object, type, locale) is [changeable]. *)
Definition contentsOnly (changeable : Z → LocalizedContentType → string → Prop)
    (db db' : Database) : Prop :=
  problemTable db' = problemTable db
  ∧ problemTagTable db' = problemTagTable db
  ∧ problemJudgeInfoTable db' = problemJudgeInfoTable db
  ∧ problemSampleTable db' = problemSampleTable db
  ∧ problemTagMapTable db' = problemTagMapTable db
  ∧ problemFileTable db' = problemFileTable db
  ∧ fileTable db' = fileTable db
  ∧ ∀ oid ty l, ¬ changeable oid ty l →
      localizedContentTable db' !! (oid, ty, l) = localizedContentTable db !! (oid, ty, l).

(** A computation whose committed writes are of that kind only. *)
Definition touchesOnly {A} (changeable : Z → LocalizedContentType → string → Prop)
    (m : M A) : Prop :=
  ∀ w, contentsOnly changeable (committed w) (committed (m w).2).

(** The field of an update entry that goes to a row of the given type is
    not null. *)
Definition givesField (type : LocalizedContentType) (e : UpdateLocalizedContentDto) : Prop :=
  match type with
  | PROBLEM_TITLE => is_Some (updateTitle e)
  | PROBLEM_CONTENT => is_Some (updateContentSections e)
  | PROBLEM_TAG_NAME => False
  end.

(** The rows [updateProblemStatement] upserts: the title row, respectively
    the content row, of this problem in a locale for which an entry of the
    request carries a title, respectively content sections. *)
Definition upsertedBy (problem : ProblemEntity.t) (request : UpdateProblemStatementRequestDto)
    (objectId : Z) (type : LocalizedContentType) (locale : string) : Prop :=
  objectId = ProblemEntity.id problem
  ∧ ∃ e, e ∈ requestLocalizedContents request ∧ updateLocale e = locale ∧ givesField type e.

(** ** More sample worlds *)

Definition adminUser : UserEntity.t := UserEntity.mk 1 true.

Definition noAccess : AccessStore := {| grants := []; memberships := []; privileges := [] |}.

Definition strictPreference : Preference :=
  {| allowOwnerManageProblemPermission := false; allowOwnerDeleteProblem := false;
     allowEveryoneCreateProblem := true |}.

(** Tag 7 is stored, the file store knows two contents and problem 1 has
    the first one attached as a.in; [fault] is the failure the storage will
    raise. *)
Definition w_store (fault : option nat) : World :=
  {| committed :=
       Build_Database ∅ {[7 := tag7]} ∅ ∅ ∅ []
         {[(1, "TestData", "a.in") := "uuid-a"]}
         {["sha-a" := {| uuid := "uuid-a"; referenceCount := 1 |};
           "sha-b" := {| uuid := "uuid-b"; referenceCount := 2 |}]};
     pending := []; issued := []; faultAfter := fault; nextProblemId := 1 |}.

Definition tag8 : ProblemTagEntity.t := ProblemTagEntity.mk 8 "blue" ["en"].

(** Tags 7 and 8 are stored and have an English name; no problem yet. *)
Definition w_tags : World :=
  {| committed :=
       Build_Database ∅ {[7 := tag7; 8 := tag8]} ∅ ∅
         {[(7, PROBLEM_TAG_NAME, "en") := "math"; (8, PROBLEM_TAG_NAME, "en") := "graph"]}
         [] ∅ ∅;
     pending := []; issued := []; faultAfter := None; nextProblemId := 1 |}.

(** Problem 1 of [w_created], and the names of tags 1 and 2 in the same
    table of localized contents: object ids of tags and of problems are
    drawn from separate counters, and the next problem gets id 2; [fault] is
    the failure the storage will raise. *)
Definition w_named (fault : option nat) : World :=
  setFaultAfter fault
    (setCommitted
       (applyAll [UpsertLocalizedContent 1 PROBLEM_TAG_NAME "en" "math";
                  UpsertLocalizedContent 2 PROBLEM_TAG_NAME "en" "graph"]
          (committed w_created))
       w_created).

(** As [w_created], with a French title row and content row left under
    id 2, the id the next problem gets. *)
Definition w_stale : World :=
  setCommitted
    (applyAll [UpsertLocalizedContent 2 PROBLEM_TITLE "fr" "Somme";
               UpsertLocalizedContent 2 PROBLEM_CONTENT "fr" "Description:Additionner."]
       (committed w_created))
    w_created.

Definition statement_zh : ProblemStatementDto :=
  {| localizedContents :=
       [ {| locale := "zh"; title := "A+B";
            contentSections := [ {| sectionName := "Description"; text := "Add." |} ] |} ];
     samples := [] |}.

(** The request keeps the English statement and adds a French one with a
    title and content sections. *)
Definition request_add_locale : UpdateProblemStatementRequestDto :=
  {| requestLocalizedContents :=
       [ {| updateLocale := "en"; updateTitle := None; updateContentSections := None |};
         {| updateLocale := "fr"; updateTitle := Some "Somme de deux nombres";
            updateContentSections :=
              Some [ {| sectionName := "Description"; text := "Additionner." |} ] |} ];
     requestSamples := None |}.



(** The file store holds content whose handle is the empty string. *)
Definition w_empty_handle : World :=
  {| committed :=
       Build_Database ∅ ∅ ∅ ∅ ∅ [] ∅
         {["sha-e" := {| uuid := EmptyString; referenceCount := 1 |}]};
     pending := []; issued := []; faultAfter := None; nextProblemId := 2 |}.

(** * Properties *)

(** ** Permission resolver *)

Lemma levelValue_pos l : 1 ≤ levelValue l.
Proof. destruct l; simpl; lia. Qed.

Lemma foldr_max_ge (zs : list Z) (n : Z) :
  0 < n → (n ≤ foldr Z.max 0 zs ↔ ∃ z, z ∈ zs ∧ n ≤ z).
Proof.
  intros Hn. induction zs as [|z zs IH]; simpl.
  - split; [lia | intros (z & Hz & _); by apply elem_of_nil in Hz].
  - split.
    + intros H. destruct (decide (n ≤ z)) as [Hz|Hz].
      * exists z. split; [left | done].
      * assert (n ≤ foldr Z.max 0 zs) as H' by lia.
        apply IH in H' as (z' & Hz' & Hle). exists z'. split; [by right | done].
    + intros (z' & Hz' & Hle). apply elem_of_cons in Hz' as [->|Hz']; [lia|].
      assert (n ≤ foldr Z.max 0 zs) by (apply IH; eauto). lia.
Qed.

Lemma userOrItsGroupsHavePermission_READ acl user obj :
  userOrItsGroupsHavePermission acl user obj PROBLEM READ = true
  ↔ holdsReadOrHigherEntry acl user obj.
Proof.
  unfold userOrItsGroupsHavePermission, maxGrantedLevel, holdsReadOrHigherEntry.
  rewrite bool_decide_eq_true, foldr_max_ge by (simpl; lia).
  rewrite Exists_exists. split.
  - intros (z & Hz & _). apply list_elem_of_fmap in Hz as (g & -> & Hg).
    apply list_elem_of_In, filter_In in Hg as [Hg Hc].
    apply andb_true_iff in Hc as [Hcov Hon].
    unfold grantOn in Hon. apply andb_true_iff in Hon as [Ho Hk].
    apply bool_decide_eq_true in Ho, Hk.
    exists g. split; [by apply list_elem_of_In|].
    split; [|split; [done|split; [done|]]].
    + unfold grantCovers in Hcov. destruct (subjectKind g);
        apply bool_decide_eq_true in Hcov; eauto.
    + unfold readOrHigher. destruct (level g); eauto.
  - intros (g & Hg & Hsub & Ho & Hk & _).
    exists (levelValue (level g)). split; [|apply levelValue_pos].
    apply list_elem_of_fmap. exists g. split; [done|].
    apply list_elem_of_In, filter_In. split; [by apply list_elem_of_In|].
    apply andb_true_iff. split.
    + unfold grantCovers. destruct Hsub as [[-> ?]|[-> ?]]; by apply bool_decide_eq_true.
    + unfold grantOn. apply andb_true_iff. split; by apply bool_decide_eq_true.
Qed.

Lemma userOrItsGroupsHavePermission_READ_decide acl user obj :
  userOrItsGroupsHavePermission acl user obj PROBLEM READ
  = bool_decide (holdsReadOrHigherEntry acl user obj).
Proof.
  apply eq_true_iff_eq. rewrite bool_decide_eq_true.
  apply userOrItsGroupsHavePermission_READ.
Qed.

(** C5: for every actor (possibly absent) and every problem, VIEW is decided
    by the first rule that applies, in this order: the problem is public,
    allow; there is no actor, deny; the actor is the owner, allow; the actor
    is a system admin, allow; the actor holds the manage-problem privilege,
    allow; the actor, directly or through one of its groups, holds an ACL
    entry of level READ or higher on the problem, allow; otherwise deny. *)
Theorem view_permission_precedence acl preference user problem :
  userHasPermission acl preference user problem VIEW =
    firstTrueWins
      [ (ProblemEntity.isPublic problem, allow);
        (actorAbsent user, deny);
        (actorIs user (λ u, bool_decide (UserEntity.id u = ProblemEntity.ownerId problem)), allow);
        (actorIs user UserEntity.isAdmin, allow);
        (actorIs user (λ u, userHasPrivilege acl u MANAGE_PROBLEM), allow);
        (actorIs user (λ u, bool_decide (holdsReadOrHigherEntry acl u (ProblemEntity.id problem))),
         allow) ]
      deny.
Proof.
  unfold userHasPermission, firstTrueWins, allow, deny.
  destruct (ProblemEntity.isPublic problem); [done|].
  destruct user as [u|]; simpl; [|done].
  rewrite userOrItsGroupsHavePermission_READ_decide.
  repeat case_match; done.
Qed.

(** C6: MANAGE_PUBLICNESS is granted exactly to an actor that is a system
    admin or holds the manage-problem privilege; an absent actor is denied,
    and the owner of the problem, when neither admin nor privileged, is
    denied as well. *)
Theorem manage_publicness_admin_or_privilege_only acl preference problem :
  (∀ user,
     userHasPermission acl preference user problem MANAGE_PUBLICNESS = true
     ↔ ∃ u, user = Some u
            ∧ (UserEntity.isAdmin u = true ∨ userHasPrivilege acl u MANAGE_PROBLEM = true))
  ∧ userHasPermission acl preference None problem MANAGE_PUBLICNESS = false
  ∧ (∀ owner,
       UserEntity.id owner = ProblemEntity.ownerId problem →
       UserEntity.isAdmin owner = false →
       userHasPrivilege acl owner MANAGE_PROBLEM = false →
       userHasPermission acl preference (Some owner) problem MANAGE_PUBLICNESS = false).
Proof.
  split; [|split].
  - intros [u|]; simpl.
    + split.
      * intros H. exists u. split; [done|].
        destruct (UserEntity.isAdmin u); [by left|].
        destruct (userHasPrivilege acl u MANAGE_PROBLEM); [by right | done].
      * intros (u' & [= <-] & [-> | H]); [done|].
        rewrite H. by destruct (UserEntity.isAdmin u).
    + split; [done | by intros (u & ? & _)].
  - done.
  - intros owner _ Hadmin Hpriv. simpl. by rewrite Hadmin, Hpriv.
Qed.

(** ** Lookup by a list of ids *)

Section FindByExistingIds.
Context {A : Type} (getId : A → Z).

Lemma arrayFromSet_elem (ids : list Z) (x : Z) : x ∈ arrayFromSet ids ↔ x ∈ ids.
Proof.
  induction ids as [|y ids IH]; simpl; [done|].
  rewrite !elem_of_cons, list_elem_of_In, filter_In, <- list_elem_of_In, IH.
  rewrite bool_decide_eq_true.
  destruct (decide (x = y)) as [->|Hne]; [split; eauto|].
  split; [intros [?|[? _]]; eauto | intros [?|?]; eauto].
Qed.

Lemma findByIds_elem (table : gmap Z A) (ids : list Z) (r : A) :
  r ∈ findByIds getId table ids ↔ (∃ k, table !! k = Some r) ∧ getId r ∈ ids.
Proof.
  unfold findByIds.
  rewrite list_elem_of_In, filter_In, <- list_elem_of_In, bool_decide_eq_true.
  rewrite list_elem_of_fmap. split.
  - intros [([k r'] & -> & Hkr) Hid]. split; [|done].
    exists k. by apply elem_of_map_to_list.
  - intros [[k Hk] Hid]. split; [|done].
    exists (k, r). split; [done|]. by apply elem_of_map_to_list.
Qed.

Lemma fromEntries_acc_Some (records : list A) (acc : gmap Z A) (i : Z) (r : A) :
  foldl (λ map record, <[getId record := record]> map) acc records !! i = Some r →
  (getId r = i ∧ r ∈ records) ∨ acc !! i = Some r.
Proof.
  revert acc. induction records as [|x records IH]; intros acc; simpl; [by right|].
  intros H. apply IH in H as [[? ?]|H]; [left; split; [done | by right]|].
  destruct (decide (getId x = i)) as [<-|Hne].
  - rewrite lookup_insert_eq in H. injection H as <-. left. split; [done | by left].
  - rewrite lookup_insert_ne in H by done. by right.
Qed.

Lemma fromEntries_acc_None (records : list A) (acc : gmap Z A) (i : Z) :
  foldl (λ map record, <[getId record := record]> map) acc records !! i = None →
  acc !! i = None ∧ ∀ r, r ∈ records → getId r ≠ i.
Proof.
  revert acc. induction records as [|x records IH]; intros acc; simpl.
  - intros H. split; [done|]. intros r Hr. by apply elem_of_nil in Hr.
  - intros H. apply IH in H as [Hacc Hrest].
    destruct (decide (getId x = i)) as [<-|Hne].
    + by rewrite lookup_insert_eq in Hacc.
    + rewrite lookup_insert_ne in Hacc by done. split; [done|].
      intros r Hr. apply elem_of_cons in Hr as [->|Hr]; [done | by apply Hrest].
Qed.

Lemma findByExistingIds_answers (table : Database → gmap Z A) (ids : list Z) (w : World) :
  ∃ result,
    findByExistingIds getId table ids w = (Return result, w)
    ∧ answersById getId (table (committed w)) ids result.
Proof.
  unfold findByExistingIds. case_bool_decide as Hlen.
  - apply nil_length_inv in Hlen as ->. exists []. split; [done|].
    repeat split; done.
  - eexists. split; [reflexivity|]. simpl.
    set (records := findByIds getId (table (committed w)) (arrayFromSet ids)).
    split; [by rewrite length_fmap|]. split; [|split].
    + intros i id Hi. rewrite list_lookup_fmap, Hi. simpl.
      eexists. split; [reflexivity|].
      destruct (fromEntries getId records !! id) as [r|] eqn:Hr.
      * apply fromEntries_acc_Some in Hr as [[Hid Hin]|Hr]; [|by rewrite lookup_empty in Hr].
        split; [done|]. by apply findByIds_elem in Hin as [? _].
      * apply fromEntries_acc_None in Hr as [_ Hr].
        intros k row Hrow Heq. apply (Hr row); [|done].
        apply findByIds_elem. split; [by exists k|].
        apply arrayFromSet_elem. rewrite Heq. by apply list_elem_of_lookup_2 in Hi.
    + intros i j Hij. by rewrite !list_lookup_fmap, Hij.
    + by intros ->.
Qed.

End FindByExistingIds.

(** C10: for every list of ids, [findProblemsByExistingIds] and
    [findProblemTagsByExistingIds] return, without touching the world, a
    list as long as the input whose i-th element is a row whose id is the
    i-th id; equal ids get the same row, an empty input gives an empty list
    and an id without a row gives an undefined element at its position. *)
Theorem findByExistingIds_positional (ids : list Z) (w : World) :
  (∃ result,
     findProblemsByExistingIds ids w = (Return result, w)
     ∧ answersById ProblemEntity.id (problemTable (committed w)) ids result)
  ∧ (∃ result,
       findProblemTagsByExistingIds ids w = (Return result, w)
       ∧ answersById ProblemTagEntity.id (problemTagTable (committed w)) ids result).
Proof.
  split; apply findByExistingIds_answers.
Qed.

(** ** Running accepted statements *)

Lemma view_logStatement m m' s w : view m (logStatement m' s w) = view m w.
Proof. by destruct m. Qed.

Lemma execute_accepted m s w :
  faultAfter w = None →
  rejects s (view m w) = None →
  execute m s w = (Return (), accept w (m, s)).
Proof.
  intros Hf Hr. unfold execute. simpl. rewrite Hf. simpl.
  assert (setFaultAfter None (logStatement m s w) = logStatement m s w) as ->.
  { unfold setFaultAfter, logStatement. simpl. by rewrite Hf. }
  by rewrite view_logStatement, Hr.
Qed.

Lemma faultAfter_accept w c : faultAfter (accept w c) = faultAfter w.
Proof. by destruct c as [[] s]. Qed.

Lemma acceptAll_cons c cmds w : acceptAll (c :: cmds) w = acceptAll cmds (accept w c).
Proof. done. Qed.

Lemma faultAfter_acceptAll cmds w : faultAfter (acceptAll cmds w) = faultAfter w.
Proof.
  revert w. induction cmds as [|c cmds IH]; intros w; [done|].
  by rewrite acceptAll_cons, IH, faultAfter_accept.
Qed.

Lemma acceptAll_app cmds1 cmds2 w :
  acceptAll (cmds1 ++ cmds2) w = acceptAll cmds2 (acceptAll cmds1 w).
Proof. apply foldl_app. Qed.

Lemma issued_acceptAll cmds w : issued (acceptAll cmds w) = (issued w ++ cmds)%list.
Proof.
  revert w. induction cmds as [|c cmds IH]; intros w.
  - by rewrite app_nil_r.
  - rewrite acceptAll_cons, IH. destruct c as [[] s]; simpl; by rewrite <- app_assoc.
Qed.

Lemma pending_acceptAll cmds w :
  pending (acceptAll cmds w) = (pending w ++ sentThrough Transactional cmds)%list.
Proof.
  revert w. induction cmds as [|c cmds IH]; intros w.
  - by rewrite app_nil_r.
  - rewrite acceptAll_cons, IH. destruct c as [[] s]; simpl; [|done].
    unfold sentThrough. simpl. by rewrite <- app_assoc.
Qed.

Lemma committed_acceptAll cmds w :
  committed (acceptAll cmds w) = applyAll (sentThrough Repository cmds) (committed w).
Proof.
  revert w. induction cmds as [|c cmds IH]; intros w; [done|].
  rewrite acceptAll_cons, IH. by destruct c as [[] s].
Qed.

Lemma nextProblemId_acceptAll cmds w : nextProblemId (acceptAll cmds w) = nextProblemId w.
Proof.
  revert w. induction cmds as [|c cmds IH]; intros w; [done|].
  rewrite acceptAll_cons, IH. by destruct c as [[] s].
Qed.

Lemma applyAll_app stmts1 stmts2 db :
  applyAll (stmts1 ++ stmts2) db = applyAll stmts2 (applyAll stmts1 db).
Proof. apply foldl_app. Qed.

Lemma view_acceptAll m cmds w :
  view m (acceptAll cmds w)
  = match m with
    | Transactional =>
        applyAll (pending w ++ sentThrough Transactional cmds)
          (applyAll (sentThrough Repository cmds) (committed w))
    | Repository => applyAll (sentThrough Repository cmds) (committed w)
    end.
Proof.
  destruct m; simpl; by rewrite ?pending_acceptAll, committed_acceptAll.
Qed.

(** A loop whose body gets all its statements accepted. *)
Lemma forEach_accepted {A} (xs : list A) (body : A → M ()) (cmds : A → list (Manager * Statement)) w :
  (∀ x w, x ∈ xs → faultAfter w = None → body x w = (Return (), acceptAll (cmds x) w)) →
  faultAfter w = None →
  forEach xs body w = (Return (), acceptAll (concat (cmds <$> xs)) w).
Proof.
  revert w. induction xs as [|x xs IH]; intros w Hbody Hf; simpl; [done|].
  unfold bind. rewrite Hbody by (done || left).
  rewrite IH.
  - by rewrite acceptAll_app.
  - intros y w' Hy. apply Hbody. by right.
  - by rewrite faultAfter_acceptAll.
Qed.

Lemma setProblemTags_accepted problem problemTags m w :
  faultAfter w = None →
  setProblemTags problem problemTags m w
  = (Return (), acceptAll ((m,.) <$> tagStatements problem problemTags) w).
Proof.
  intros Hf. unfold setProblemTags, bind.
  rewrite execute_accepted by done.
  case_bool_decide as Hlen.
  - apply nil_length_inv in Hlen as ->. done.
  - destruct problemTags as [|t ts]; [done|].
    rewrite execute_accepted; [done| by rewrite faultAfter_accept |done].
Qed.

(** ** Tag synchronizer *)

Lemma view_accept m s w : view m (accept w (m, s)) = applyStatement s (view m w).
Proof. destruct m; simpl; [|done]. by rewrite foldl_app. Qed.

Lemma view_acceptAll_same m stmts w :
  view m (acceptAll ((m,.) <$> stmts) w) = applyAll stmts (view m w).
Proof.
  revert w. induction stmts as [|s stmts IH]; intros w; [done|].
  rewrite fmap_cons, acceptAll_cons, IH, view_accept. done.
Qed.

Lemma filter_own_rows (pid : Z) (table : list (Z * Z)) :
  List.filter (λ row, bool_decide (row.1 = pid))
    (List.filter (λ row, bool_decide (row.1 ≠ pid)) table) = [].
Proof.
  induction table as [|row table IH]; simpl; [done|].
  case_bool_decide as Hne; simpl; [|done].
  rewrite bool_decide_eq_false_2 by done. done.
Qed.

Lemma filter_other_rows (pid : Z) (table : list (Z * Z)) :
  List.filter (λ row, bool_decide (row.1 ≠ pid))
    (List.filter (λ row, bool_decide (row.1 ≠ pid)) table)
  = List.filter (λ row, bool_decide (row.1 ≠ pid)) table.
Proof.
  induction table as [|row table IH]; simpl; [done|].
  case_bool_decide as Hne; simpl; [|done].
  rewrite bool_decide_eq_true_2 by done. by rewrite IH.
Qed.

Lemma filter_tagMapRows_own problem problemTags :
  List.filter (λ row, bool_decide (row.1 = ProblemEntity.id problem))
    (tagMapRows problem problemTags) = tagMapRows problem problemTags.
Proof.
  induction problemTags as [|t ts IH]; simpl; [done|].
  rewrite bool_decide_eq_true_2 by done. by rewrite IH.
Qed.

Lemma filter_tagMapRows_other problem problemTags :
  List.filter (λ row, bool_decide (row.1 ≠ ProblemEntity.id problem))
    (tagMapRows problem problemTags) = [].
Proof.
  induction problemTags as [|t ts IH]; simpl; [done|].
  rewrite bool_decide_eq_false_2 by (by intros []). done.
Qed.

Lemma problemTagMapTable_tagStatements problem problemTags db :
  problemTagMapTable (applyAll (tagStatements problem problemTags) db)
  = (List.filter (λ row, bool_decide (row.1 ≠ ProblemEntity.id problem)) (problemTagMapTable db)
     ++ tagMapRows problem problemTags)%list.
Proof.
  destruct problemTags as [|t ts]; simpl; [by rewrite app_nil_r | done].
Qed.

(** C9: for every problem and list of tags, on a storage that raises no
    failure, [setProblemTags] sends the delete of all rows of the problem
    and then, unless the list is empty, one insert with one row per given
    tag, in this order; afterwards the rows of the problem are exactly
    these and the rows of other problems are as before.  When the list is
    empty the delete is the only statement sent, whatever the storage
    does. *)
Theorem setProblemTags_replaces problem problemTags m w :
  let pid := ProblemEntity.id problem in
  let rows := (λ problemTag, (pid, ProblemTagEntity.id problemTag)) <$> problemTags in
  let outcome := setProblemTags problem problemTags m w in
  (faultAfter w = None →
     outcome.1 = Return ()
     ∧ issued outcome.2
       = (issued w
          ++ (m, DeleteProblemTagMaps pid)
             :: match problemTags with
                | [] => []
                | _ => [(m, InsertProblemTagMaps rows)]
                end)%list
     ∧ List.filter (λ row, bool_decide (row.1 = pid)) (problemTagMapTable (view m outcome.2))
       = rows
     ∧ List.filter (λ row, bool_decide (row.1 ≠ pid)) (problemTagMapTable (view m outcome.2))
       = List.filter (λ row, bool_decide (row.1 ≠ pid)) (problemTagMapTable (view m w)))
  ∧ (problemTags = [] →
     issued outcome.2 = (issued w ++ [(m, DeleteProblemTagMaps pid)])%list).
Proof.
  intros pid rows outcome. subst pid rows outcome.
  change ((λ t, (ProblemEntity.id problem, ProblemTagEntity.id t)) <$> problemTags)
    with (tagMapRows problem problemTags).
  split.
  - intros Hf. rewrite setProblemTags_accepted by done.
    cbn [fst snd]. split; [done|]. split.
    { rewrite issued_acceptAll. destruct problemTags; reflexivity. }
    rewrite view_acceptAll_same, problemTagMapTable_tagStatements.
    rewrite !List.filter_app, filter_own_rows, filter_other_rows.
    rewrite filter_tagMapRows_own, filter_tagMapRows_other, app_nil_r. split; reflexivity.
  - intros ->. unfold setProblemTags, bind, execute. simpl.
    destruct (faultAfter w) as [[|n]|]; simpl; by destruct m.
Qed.

(** ** File attachment manager *)

(** C7: for every [addProblemFile] call whose content hash the file store
    does not know, [tryReferenceFile] yields nothing, the call returns
    false, no problem file row is created or changed (no committed row of
    any table changes) and no statement is sent. *)
Theorem addProblemFile_unknown_hash problem sha256 type filename w :
  fileTable (committed w) !! sha256 = None →
  let outcome := addProblemFile problem sha256 type filename w in
  (FileService.tryReferenceFile sha256 Transactional (setPending [] w)).1 = Return None
  ∧ outcome.1 = Return false
  ∧ problemFileTable (committed outcome.2) = problemFileTable (committed w)
  ∧ committed outcome.2 = committed w
  ∧ issued outcome.2 = issued w.
Proof.
  intros Hnone.
  unfold addProblemFile, transaction, bind, FileService.tryReferenceFile, bind, query.
  simpl. rewrite Hnone. simpl. done.
Qed.


Lemma addProblemFile_unknown_hash_witness :
  (addProblemFile (ProblemEntity.mk 1 None "Traditional" false 10 []) "abc" "TestData" "1.in" w_empty).1
  = Return false.
Proof.
  refine (proj1 (proj2 (addProblemFile_unknown_hash
                          (ProblemEntity.mk 1 None "Traditional" false 10 [])
                          "abc" "TestData" "1.in" w_empty _))).
  reflexivity.
Defined.

Lemma renameProblemFile_missing problem type filename newFilename w :
  problemFileTable (committed w) !! (ProblemEntity.id problem, type, filename) = None →
  renameProblemFile problem type filename newFilename w = (Return false, w).
Proof.
  intros Hnone. unfold renameProblemFile, bind, query. simpl. by rewrite Hnone.
Qed.

Lemma renameProblemFile_free problem type filename newFilename w fileUuid :
  problemFileTable (committed w) !! (ProblemEntity.id problem, type, filename) = Some fileUuid →
  faultAfter w = None →
  newFilename = filename
  ∨ problemFileTable (committed w) !! (ProblemEntity.id problem, type, newFilename) = None →
  renameProblemFile problem type filename newFilename w
  = (Return true,
     accept w (Repository,
               UpdateProblemFilename (ProblemEntity.id problem) type filename fileUuid
                 newFilename)).
Proof.
  intros Hrow Hf Hfree. unfold renameProblemFile, bind, query. simpl. rewrite Hrow.
  rewrite execute_accepted; [done|done|].
  simpl. rewrite bool_decide_eq_false_2; [done|].
  intros (Hne & _ & Hsome). destruct Hfree as [?|Hnone]; [done|].
  rewrite Hnone in Hsome. by destruct Hsome.
Qed.

Lemma renameProblemFile_taken problem type filename newFilename w fileUuid :
  problemFileTable (committed w) !! (ProblemEntity.id problem, type, filename) = Some fileUuid →
  faultAfter w = None →
  newFilename ≠ filename →
  is_Some (problemFileTable (committed w) !! (ProblemEntity.id problem, type, newFilename)) →
  (renameProblemFile problem type filename newFilename w).1 = Throw ER_DUP_ENTRY
  ∧ committed (renameProblemFile problem type filename newFilename w).2 = committed w.
Proof.
  intros Hrow Hf Hne Htaken. unfold renameProblemFile, bind, query. simpl. rewrite Hrow.
  unfold execute. simpl. rewrite Hf. simpl.
  rewrite bool_decide_eq_true_2 by done. done.
Qed.

(** C8, amended: [renameProblemFile] returns false and changes nothing when
    no row exists at (problemId, type, filename).  When the row exists, the
    storage raises no failure and the new name is the old one or is free,
    it returns true; the row is then found under the new filename with the
    same uuid, the old key is gone, every other row is as before and the
    reference counts of the file store are unchanged.  When another row
    already has the new name, the primary key rejects the update, the error
    propagates and no row changes. *)
Theorem renameProblemFile_in_place problem type filename newFilename w :
  let pid := ProblemEntity.id problem in
  let files := problemFileTable (committed w) in
  let outcome := renameProblemFile problem type filename newFilename w in
  (files !! (pid, type, filename) = None → outcome = (Return false, w))
  ∧ (∀ fileUuid,
       files !! (pid, type, filename) = Some fileUuid →
       faultAfter w = None →
       newFilename = filename ∨ files !! (pid, type, newFilename) = None →
       outcome.1 = Return true
       ∧ problemFileTable (committed outcome.2) !! (pid, type, newFilename) = Some fileUuid
       ∧ (newFilename ≠ filename →
          problemFileTable (committed outcome.2) !! (pid, type, filename) = None)
       ∧ (∀ key, key ≠ (pid, type, filename) → key ≠ (pid, type, newFilename) →
          problemFileTable (committed outcome.2) !! key = files !! key)
       ∧ fileTable (committed outcome.2) = fileTable (committed w))
  ∧ (∀ fileUuid,
       files !! (pid, type, filename) = Some fileUuid →
       faultAfter w = None →
       newFilename ≠ filename →
       is_Some (files !! (pid, type, newFilename)) →
       outcome.1 = Throw ER_DUP_ENTRY ∧ committed outcome.2 = committed w).
Proof.
  intros pid files outcome. subst pid files outcome.
  split; [apply renameProblemFile_missing|]. split.
  - intros fileUuid Hrow Hf Hfree.
    rewrite (renameProblemFile_free _ _ _ _ _ fileUuid) by done.
    cbn [fst snd accept store logStatement committed setCommitted applyStatement].
    rewrite Hrow, bool_decide_eq_true_2 by done.
    cbn [problemFileTable fileTable setProblemFileTable].
    split; [done|]. split; [by rewrite lookup_insert_eq|]. split; [|split; [|done]].
    + intros Hne. rewrite lookup_insert_ne by congruence. by rewrite lookup_delete_eq.
    + intros key Hk1 Hk2. rewrite lookup_insert_ne by done. by rewrite lookup_delete_ne.
  - intros fileUuid. apply renameProblemFile_taken.
Qed.


Lemma renameProblemFile_onto_existing_name_throws :
  problemFileTable (committed w_files) !! (1, "TestData", "a.in") = Some "uuid-a"
  ∧ faultAfter w_files = None
  ∧ (renameProblemFile problem1 "TestData" "a.in" "b.in" w_files).1 = Throw ER_DUP_ENTRY
  ∧ (renameProblemFile problem1 "TestData" "a.in" "b.in" w_files).1 ≠ Return true.
Proof. vm_compute. repeat split; try done. Qed.

(** ** Display id *)

Lemma displayIdTaken_count problem db :
  displayIdTaken problem db = true →
  countByDisplayId (ProblemEntity.displayId problem) db ≠ 0%nat.
Proof.
  unfold displayIdTaken, countByDisplayId. rewrite bool_decide_eq_true.
  intros (k & q & Hkq & _ & _ & Heq).
  assert ((k, q) ∈ List.filter
            (λ kv, bool_decide (ProblemEntity.displayId kv.2 = ProblemEntity.displayId problem))
            (map_to_list (problemTable db))) as Hin.
  { apply list_elem_of_In, filter_In. split.
    - apply list_elem_of_In. by apply elem_of_map_to_list.
    - by apply bool_decide_eq_true. }
  intros Hlen. apply nil_length_inv in Hlen. rewrite Hlen in Hin. by apply elem_of_nil in Hin.
Qed.

Lemma view_setFaultAfter m f w : view m (setFaultAfter f w) = view m w.
Proof. by destruct m. Qed.

(** A statement that fails leaves the committed rows and the write set as
    they were; a duplicate-entry error comes from a constraint. *)
Lemma execute_throws m s w e w' :
  execute m s w = (Throw e, w') →
  committed w' = committed w ∧ pending w' = pending w
  ∧ (e = ER_DUP_ENTRY → rejects s (view m w) = Some ER_DUP_ENTRY).
Proof.
  unfold execute. cbn [faultAfter logStatement].
  destruct (faultAfter w) as [[|n]|]; cbn [fmap option_fmap option_map].
  - intros [= <- <-]. done.
  - rewrite view_setFaultAfter, view_logStatement.
    destruct (rejects s (view m w)) as [e'|]; [|done].
    intros [= <- <-]. repeat split; try done. by intros ->.
  - rewrite view_setFaultAfter, view_logStatement.
    destruct (rejects s (view m w)) as [e'|]; [|done].
    intros [= <- <-]. repeat split; try done. by intros ->.
Qed.

(** C4, amended: when the save of the new display id fails with error [e],
    [setProblemDisplayId] returns false if the failure is a uniqueness
    violation, and more generally whenever some stored problem holds the
    target display id, whatever the kind of the failure; it propagates [e]
    unchanged when no stored problem holds it.  Nothing is written. *)
Theorem setProblemDisplayId_failure problem displayId w e w1 :
  let target := if falsy displayId then None else displayId in
  let outcome := setProblemDisplayId problem displayId w in
  ProblemEntity.displayId problem ≠ target →
  execute Repository (SaveProblem (ProblemEntity.withDisplayId problem target)) w
    = (Throw e, w1) →
  (e = ER_DUP_ENTRY → outcome.1 = Return false)
  ∧ (countByDisplayId target (committed w) ≠ 0%nat → outcome.1 = Return false)
  ∧ (countByDisplayId target (committed w) = 0%nat → outcome.1 = Throw e)
  ∧ committed outcome.2 = committed w.
Proof.
  intros target outcome Hchange Hsave.
  assert (outcome
          = (if bool_decide (countByDisplayId target (committed w) ≠ 0%nat)
             then (Return false, w1) else (Throw e, w1))) as ->.
  { subst outcome. unfold setProblemDisplayId. fold target.
    case_bool_decide; [done|].
    unfold tryCatch, bind. rewrite Hsave. unfold query. cbn [view].
    apply execute_throws in Hsave as (-> & _ & _). by case_bool_decide. }
  apply execute_throws in Hsave as (Hcommitted & _ & Hdup).
  split; [|split; [|split]].
  - intros He. specialize (Hdup He). cbn [rejects view] in Hdup.
    destruct (displayIdTaken _ _) eqn:Htaken in Hdup; [|done].
    apply displayIdTaken_count in Htaken. cbn in Htaken.
    by rewrite bool_decide_eq_true_2.
  - intros Hn. by rewrite bool_decide_eq_true_2.
  - intros Hn. rewrite bool_decide_eq_false_2; [done|]. by intros ?.
  - by case_bool_decide.
Qed.


Lemma setProblemDisplayId_swallows_storage_failure :
  execute Repository (SaveProblem (ProblemEntity.withDisplayId problem2 (Some 5)))
    (w_displayId (Some 0%nat))
  = (Throw StorageFailure, setFaultAfter None
       (logStatement Repository (SaveProblem (ProblemEntity.withDisplayId problem2 (Some 5)))
          (w_displayId (Some 0%nat))))
  ∧ StorageFailure ≠ ER_DUP_ENTRY
  ∧ (setProblemDisplayId problem2 (Some 5) (w_displayId (Some 0%nat))).1 = Return false
  ∧ (setProblemDisplayId problem2 (Some 5) (w_displayId (Some 0%nat))).1 ≠ Throw StorageFailure.
Proof. vm_compute. repeat split; done. Qed.

(** ** Statement updates *)

Lemma applyAll_preserves {B} (proj : Database → B) stmts db :
  Forall (λ s, ∀ db, proj (applyStatement s db) = proj db) stmts →
  proj (applyAll stmts db) = proj db.
Proof.
  revert db. induction stmts as [|s stmts IH]; intros db Hall; [done|].
  inversion Hall as [|? ? Hs Hrest]; subst.
  change (applyAll (s :: stmts) db) with (applyAll stmts (applyStatement s db)).
  by rewrite IH, Hs.
Qed.

Lemma keeps_tagStatements problem tags :
  Forall keepsProblems (tagStatements problem tags)
  ∧ Forall keepsContents (tagStatements problem tags).
Proof. destruct tags; split; repeat constructor. Qed.

Section StatementProofs.
Variable JSON_stringify : list ProblemContentSection → string.

Lemma keepsProblems_upsertsOf pid e : Forall keepsProblems (upsertsOf JSON_stringify pid e).
Proof.
  unfold upsertsOf. destruct (updateTitle e), (updateContentSections e); repeat constructor.
Qed.

Lemma keepsProblems_deletesOf pid l : Forall keepsProblems (deletesOf pid l).
Proof. repeat constructor. Qed.

Lemma Forall_concat_fmap {A B} (P : B → Prop) (f : A → list B) (xs : list A) :
  (∀ x, Forall P (f x)) → Forall P (concat (f <$> xs)).
Proof.
  intros Hf. induction xs as [|x xs IH]; simpl; [constructor|].
  apply Forall_app. split; [apply Hf | apply IH].
Qed.

Lemma keepsProblems_upserts pid entries :
  Forall keepsProblems (concat (upsertsOf JSON_stringify pid <$> entries)).
Proof. apply Forall_concat_fmap, keepsProblems_upsertsOf. Qed.

Lemma keepsProblems_deletes pid ls : Forall keepsProblems (concat (deletesOf pid <$> ls)).
Proof. apply Forall_concat_fmap, keepsProblems_deletesOf. Qed.

Lemma sentThrough_app m cmds1 cmds2 :
  sentThrough m (cmds1 ++ cmds2) = (sentThrough m cmds1 ++ sentThrough m cmds2)%list.
Proof. unfold sentThrough. by rewrite List.filter_app, fmap_app. Qed.

Lemma sentThrough_same m stmts : sentThrough m ((m,.) <$> stmts) = stmts.
Proof.
  unfold sentThrough. destruct m.
  - induction stmts as [|s stmts IH]; [done|]. simpl in *. by f_equal.
  - induction stmts as [|s stmts IH]; [done|]. simpl in *. by f_equal.
Qed.

Lemma sentThrough_other m m' stmts : m ≠ m' → sentThrough m ((m',.) <$> stmts) = [].
Proof.
  intros Hne. unfold sentThrough. destruct m, m'; try done.
  - induction stmts as [|s stmts IH]; [done|]. simpl in *. done.
  - induction stmts as [|s stmts IH]; [done|]. simpl in *. done.
Qed.

Lemma sentThrough_Forall (P : Statement → Prop) m cmds :
  Forall P (snd <$> cmds) → Forall P (sentThrough m cmds).
Proof.
  unfold sentThrough. induction cmds as [|c cmds IH]; [done|].
  rewrite fmap_cons. intros Hall. inversion Hall as [|? ? Hc Hrest]; subst.
  simpl. destruct (match c.1 with Transactional => _ | Repository => _ end); simpl; auto.
Qed.

Lemma snd_tagged (m : Manager) (stmts : list Statement) : snd <$> ((m,.) <$> stmts) = stmts.
Proof. induction stmts as [|s stmts IH]; [done|]. rewrite !fmap_cons. simpl. by f_equal. Qed.

Lemma bind_accepted {A B} (m : M A) (k : A → M B) a w w' :
  m w = (Return a, w') → bind m k w = k a w'.
Proof. intros H. unfold bind. by rewrite H. Qed.

Lemma displayIdTaken_ext p p' db db' :
  problemTable db = problemTable db' →
  ProblemEntity.id p = ProblemEntity.id p' →
  ProblemEntity.displayId p = ProblemEntity.displayId p' →
  displayIdTaken p db = displayIdTaken p' db'.
Proof. intros H1 H2 H3. unfold displayIdTaken. by rewrite H1, H2, H3. Qed.

Lemma tag_concat {A} (m : Manager) (f : A → list Statement) (xs : list A) :
  concat ((λ x, (m,.) <$> f x) <$> xs) = (m,.) <$> concat (f <$> xs).
Proof.
  induction xs as [|x xs IH]; [done|].
  rewrite !fmap_cons. simpl. by rewrite fmap_app, IH.
Qed.

Lemma deletes_accepted pid ls w :
  faultAfter w = None →
  forEach ls (λ deletingLocale,
      LocalizedContentService.delete pid PROBLEM_TITLE (Some deletingLocale) (Some Transactional);;
      LocalizedContentService.delete pid PROBLEM_CONTENT (Some deletingLocale) (Some Transactional)) w
  = (Return (), acceptAll ((Transactional,.) <$> concat (deletesOf pid <$> ls)) w).
Proof.
  intros Hf.
  rewrite (forEach_accepted _ _ (λ l, (Transactional,.) <$> deletesOf pid l)); [|..|done].
  - by rewrite tag_concat.
  - intros l w' _ Hf'. unfold LocalizedContentService.delete. simpl.
    erewrite bind_accepted by (by apply execute_accepted).
    rewrite execute_accepted; [done| by rewrite faultAfter_accept |done].
Qed.

Lemma upserts_accepted pid entries w :
  faultAfter w = None →
  forEach entries (λ localizedContent,
      match updateTitle localizedContent with
      | Some title =>
          LocalizedContentService.createOrUpdate pid PROBLEM_TITLE
            (updateLocale localizedContent) title None
      | None => ret ()
      end;;
      match updateContentSections localizedContent with
      | Some sections =>
          LocalizedContentService.createOrUpdate pid PROBLEM_CONTENT
            (updateLocale localizedContent) (JSON_stringify sections) None
      | None => ret ()
      end) w
  = (Return (),
     acceptAll ((Repository,.) <$> concat (upsertsOf JSON_stringify pid <$> entries)) w).
Proof.
  intros Hf.
  rewrite (forEach_accepted _ _ (λ e, (Repository,.) <$> upsertsOf JSON_stringify pid e));
    [|..|done].
  - by rewrite tag_concat.
  - intros e w' _ Hf'. unfold LocalizedContentService.createOrUpdate, upsertsOf. simpl.
    destruct (updateTitle e) as [t|], (updateContentSections e) as [c|]; simpl.
    + erewrite bind_accepted by (by apply execute_accepted).
      rewrite execute_accepted; [done| by rewrite faultAfter_accept |done].
    + erewrite bind_accepted by (by apply execute_accepted). done.
    + unfold bind, ret. by rewrite execute_accepted.
    + done.
Qed.

Lemma updateProblemStatement_accepted problem request tags w :
  faultAfter w = None →
  (is_Some (requestSamples request) →
   is_Some (problemSampleTable (committed w) !! ProblemEntity.id problem)) →
  displayIdTaken problem (committed w) = false →
  ∃ w',
    updateProblemStatement JSON_stringify problem request tags w = (Return true, w')
    ∧ committed w'
      = applyAll (transactionStatements problem request tags)
          (applyAll (upsertStatements JSON_stringify problem request) (committed w))
    ∧ pending w' = []
    ∧ faultAfter w' = None
    ∧ issued w'
      = (issued w
         ++ ((Transactional,.) <$>
               (sampleStatements problem request
                ++ concat (deletesOf (ProblemEntity.id problem)
                             <$> deletingLocalesOf problem request)))
         ++ ((Repository,.) <$> upsertStatements JSON_stringify problem request)
         ++ ((Transactional,.) <$>
               (tagStatements problem tags
                ++ [SaveProblem (ProblemEntity.withLocales problem (newLocalesOf request))])))%list.
Proof.
  intros Hf Hsample Htaken.
  set (pid := ProblemEntity.id problem).
  set (w0 := setPending [] w).
  set (cmds := (((Transactional,.) <$> sampleStatements problem request)
         ++ ((Transactional,.) <$>
               concat (deletesOf pid <$> deletingLocalesOf problem request))
         ++ ((Repository,.) <$> upsertStatements JSON_stringify problem request)
         ++ ((Transactional,.) <$> tagStatements problem tags))%list).
  assert (faultAfter w0 = None) as Hf0 by done.
  (* the sample *)
  assert (match requestSamples request with
          | Some data =>
              problemSample ← query Transactional (λ db, problemSampleTable db !! pid);
              match problemSample with
              | None => throw TypeError
              | Some _ => execute Transactional (SaveProblemSample pid data)
              end
          | None => ret ()
          end w0
          = (Return (), acceptAll ((Transactional,.) <$> sampleStatements problem request) w0))
    as Hstep1.
  { unfold sampleStatements. destruct (requestSamples request) as [data|]; [|done].
    destruct Hsample as [old Hold]; [by eexists|].
    unfold bind at 1, query. cbn [view w0 setPending pending committed foldl].
    fold pid in Hold. rewrite Hold. by rewrite execute_accepted. }
  eexists. split.
  - unfold updateProblemStatement. fold pid.
    erewrite bind_accepted; [reflexivity|].
    unfold transaction. fold w0.
    erewrite bind_accepted by exact Hstep1.
    erewrite bind_accepted
      by (apply deletes_accepted; by rewrite faultAfter_acceptAll).
    erewrite bind_accepted
      by (apply upserts_accepted; by rewrite !faultAfter_acceptAll).
    erewrite bind_accepted
      by (apply setProblemTags_accepted; by rewrite !faultAfter_acceptAll).
    rewrite <- !acceptAll_app.
    change (acceptAll _ w0) with (acceptAll cmds w0).
    rewrite execute_accepted; [reflexivity| by rewrite faultAfter_acceptAll |].
    cbn [rejects].
    erewrite displayIdTaken_ext; [by rewrite Htaken| |done|done].
    rewrite view_acceptAll. cbn [w0 setPending pending committed app].
    assert (Forall keepsProblems (snd <$> cmds)) as Hkeeps.
    { subst cmds. rewrite !fmap_app, !snd_tagged. repeat apply Forall_app_2.
      - unfold sampleStatements. destruct (requestSamples request); repeat constructor.
      - apply keepsProblems_deletes.
      - apply keepsProblems_upserts.
      - apply keeps_tagStatements. }
    rewrite !applyAll_preserves; [done|by apply sentThrough_Forall..].
  - assert (sentThrough Transactional cmds
            = (sampleStatements problem request
               ++ concat (deletesOf pid <$> deletingLocalesOf problem request)
               ++ tagStatements problem tags)%list) as Htx.
    { subst cmds. rewrite !sentThrough_app, !sentThrough_same, sentThrough_other by done.
      reflexivity. }
    assert (sentThrough Repository cmds = upsertStatements JSON_stringify problem request)
      as Hrepo.
    { subst cmds. rewrite !sentThrough_app, sentThrough_same, !sentThrough_other by done.
      cbn [app]. by rewrite app_nil_r. }
    cbn [committed pending faultAfter issued setPending setCommitted].
    split; [|split; [done|split]].
    + rewrite view_accept, view_acceptAll, Htx, Hrepo.
      cbn [w0 setPending pending committed app].
      unfold transactionStatements. fold pid.
      symmetry. rewrite !app_assoc, applyAll_app. reflexivity.
    + by rewrite faultAfter_accept, faultAfter_acceptAll.
    + change (issued (accept ?w' ?c)) with (issued w' ++ [c])%list.
      rewrite issued_acceptAll. subst cmds. cbn [w0 setPending issued].
      rewrite !fmap_app, <- !app_assoc. done.
Qed.

(** *** The rows after the statements *)

Lemma applyAll_cons s stmts db :
  applyAll (s :: stmts) db = applyAll stmts (applyStatement s db).
Proof. done. Qed.

Lemma contents_upsertsOf pid e db oid ty l :
  localizedContentTable (applyAll (upsertsOf JSON_stringify pid e) db) !! (oid, ty, l)
  = match (if bool_decide (oid = pid ∧ updateLocale e = l)
           then requested JSON_stringify ty e else None) with
    | Some data => Some data
    | None => localizedContentTable db !! (oid, ty, l)
    end.
Proof.
  unfold upsertsOf, requested.
  case_bool_decide as Hkey.
  - destruct Hkey as [-> <-].
    destruct (updateTitle e) as [t|], (updateContentSections e) as [c|], ty; simpl;
      rewrite ?lookup_insert_eq; try done;
      rewrite ?lookup_insert_ne by done; rewrite ?lookup_insert_eq; done.
  - destruct (updateTitle e) as [t|], (updateContentSections e) as [c|]; simpl;
      rewrite ?lookup_insert_ne by (intros [= ? ? ?]; by apply Hkey); done.
Qed.

Lemma contents_upserts pid entries db oid ty l :
  localizedContentTable (applyAll (concat (upsertsOf JSON_stringify pid <$> entries)) db)
    !! (oid, ty, l)
  = match (if bool_decide (oid = pid)
           then lastRequested JSON_stringify ty l entries else None) with
    | Some data => Some data
    | None => localizedContentTable db !! (oid, ty, l)
    end.
Proof.
  revert db. induction entries as [|e entries IH]; intros db.
  - by case_bool_decide.
  - rewrite fmap_cons. simpl concat. rewrite applyAll_app, IH, contents_upsertsOf.
    simpl lastRequested.
    case_bool_decide as Hoid.
    + destruct (lastRequested JSON_stringify ty l entries) as [data|]; [done|].
      repeat case_bool_decide; try done; exfalso; tauto.
    + case_bool_decide as Hboth; [by destruct Hboth | done].
Qed.

Lemma contents_deletesOf pid d db oid ty l :
  localizedContentTable (applyAll (deletesOf pid d) db) !! (oid, ty, l)
  = if bool_decide (oid = pid ∧ ty ≠ PROBLEM_TAG_NAME ∧ l = d) then None
    else localizedContentTable db !! (oid, ty, l).
Proof.
  simpl. case_bool_decide as Hkey.
  - destruct Hkey as (-> & Hty & ->). destruct ty; [| |done].
    + rewrite lookup_delete_ne by done. by rewrite lookup_delete_eq.
    + by rewrite lookup_delete_eq.
  - destruct (decide ((oid, ty, l) = (pid, PROBLEM_CONTENT, d))) as [[= -> -> ->]|Hc].
    { exfalso. by apply Hkey. }
    destruct (decide ((oid, ty, l) = (pid, PROBLEM_TITLE, d))) as [[= -> -> ->]|Ht].
    { exfalso. by apply Hkey. }
    by rewrite !lookup_delete_ne.
Qed.

Lemma contents_deletes pid ds db oid ty l :
  localizedContentTable (applyAll (concat (deletesOf pid <$> ds)) db) !! (oid, ty, l)
  = if bool_decide (oid = pid ∧ ty ≠ PROBLEM_TAG_NAME ∧ l ∈ ds) then None
    else localizedContentTable db !! (oid, ty, l).
Proof.
  revert db. induction ds as [|d ds IH]; intros db.
  - rewrite bool_decide_eq_false_2; [done|]. intros (_ & _ & Hin). by apply elem_of_nil in Hin.
  - change (concat (deletesOf pid <$> d :: ds))
      with (deletesOf pid d ++ concat (deletesOf pid <$> ds))%list.
    rewrite applyAll_app, IH, contents_deletesOf.
    repeat case_bool_decide; try done; exfalso.
    + match goal with H : ¬ _ |- _ => apply H end.
      destruct_and!. repeat split; try done. by right.
    + match goal with H : ¬ (_ ∧ _ ∧ _ ∈ d :: ds) |- _ => apply H end.
      destruct_and!. repeat split; try done. subst. by left.
    + destruct_and!.
      match goal with H : _ ∈ _ :: _ |- _ => apply elem_of_cons in H as [?|?] end; eauto.
Qed.

Lemma keepsContents_sample problem request :
  Forall keepsContents (sampleStatements problem request).
Proof. unfold sampleStatements. destruct (requestSamples request); repeat constructor. Qed.

Lemma keepsProblems_sample problem request :
  Forall keepsProblems (sampleStatements problem request).
Proof. unfold sampleStatements. destruct (requestSamples request); repeat constructor. Qed.

Lemma contents_after_update problem request tags db oid ty l :
  localizedContentTable
    (applyAll (transactionStatements problem request tags)
       (applyAll (upsertStatements JSON_stringify problem request) db)) !! (oid, ty, l)
  = if bool_decide (oid = ProblemEntity.id problem ∧ ty ≠ PROBLEM_TAG_NAME
                    ∧ l ∈ deletingLocalesOf problem request)
    then None
    else match (if bool_decide (oid = ProblemEntity.id problem)
                then lastRequested JSON_stringify ty l (requestLocalizedContents request)
                else None) with
         | Some data => Some data
         | None => localizedContentTable db !! (oid, ty, l)
         end.
Proof.
  unfold transactionStatements, upsertStatements.
  rewrite !applyAll_app.
  rewrite (applyAll_preserves localizedContentTable [SaveProblem _]) by repeat constructor.
  rewrite (applyAll_preserves localizedContentTable (tagStatements _ _))
    by apply keeps_tagStatements.
  rewrite contents_deletes.
  rewrite (applyAll_preserves localizedContentTable (sampleStatements _ _))
    by apply keepsContents_sample.
  by rewrite contents_upserts.
Qed.

Lemma problems_after_update problem request tags db :
  problemTable
    (applyAll (transactionStatements problem request tags)
       (applyAll (upsertStatements JSON_stringify problem request) db))
  = <[ProblemEntity.id problem := ProblemEntity.withLocales problem (newLocalesOf request)]>
      (problemTable db).
Proof.
  unfold transactionStatements, upsertStatements.
  rewrite !applyAll_app.
  change (applyAll [SaveProblem ?p] ?x) with (applyStatement (SaveProblem p) x).
  cbn [applyStatement setProblemTable problemTable].
  rewrite (applyAll_preserves problemTable (tagStatements _ _)) by apply keeps_tagStatements.
  rewrite (applyAll_preserves problemTable (concat _)) by apply keepsProblems_deletes.
  rewrite (applyAll_preserves problemTable (sampleStatements _ _))
    by apply keepsProblems_sample.
  rewrite (applyAll_preserves problemTable (concat _)) by apply keepsProblems_upserts.
  done.
Qed.

Lemma deletingLocalesOf_elem problem request l :
  l ∈ deletingLocalesOf problem request
  ↔ l ∈ ProblemEntity.locales problem ∧ l ∉ newLocalesOf request.
Proof.
  unfold deletingLocalesOf.
  rewrite list_elem_of_In, filter_In, <- list_elem_of_In, negb_true_iff, bool_decide_eq_false.
  done.
Qed.

Lemma lastRequested_None ty l entries :
  lastRequested JSON_stringify ty l entries = None
  ↔ ∀ e, e ∈ entries → updateLocale e = l → requested JSON_stringify ty e = None.
Proof.
  induction entries as [|e entries IH]; simpl.
  - split; [|done]. intros _ e He. by apply elem_of_nil in He.
  - destruct (lastRequested JSON_stringify ty l entries) as [data|] eqn:Hlast.
    + split; [done|]. intros Hall.
      assert (Some data = None) as Hbad; [|done].
      apply IH. intros e' He'. apply Hall. by right.
    + destruct IH as [IH _]. specialize (IH eq_refl).
      case_bool_decide as Hl.
      * split.
        -- intros Hreq e' He' Hl'. apply elem_of_cons in He' as [->|He']; [done | by apply IH].
        -- intros Hall. apply Hall; [by left | done].
      * split; [|done]. intros _ e' He' Hl'.
        apply elem_of_cons in He' as [->|He']; [done | by apply IH].
Qed.

Lemma lastRequested_last ty pre e post data :
  requested JSON_stringify ty e = Some data →
  (∀ e', e' ∈ post → updateLocale e' = updateLocale e →
         requested JSON_stringify ty e' = None) →
  lastRequested JSON_stringify ty (updateLocale e) (pre ++ e :: post) = Some data.
Proof.
  intros Hreq Hpost. induction pre as [|x pre IH]; simpl.
  - apply lastRequested_None in Hpost. rewrite Hpost.
    by rewrite bool_decide_eq_true_2.
  - simpl in IH. by rewrite IH.
Qed.

Lemma lastRequested_Some ty l entries data :
  lastRequested JSON_stringify ty l entries = Some data →
  ∃ e, e ∈ entries ∧ updateLocale e = l ∧ requested JSON_stringify ty e = Some data.
Proof.
  induction entries as [|e entries IH]; simpl; [done|].
  destruct (lastRequested JSON_stringify ty l entries) as [data'|].
  - intros [= ->]. destruct (IH eq_refl) as (e' & He' & ? & ?).
    exists e'. split; [by right | done].
  - case_bool_decide as Hl; [|done]. intros Hreq. exists e. split; [by left | done].
Qed.

(** C3: for every [updateProblemStatement] call that the storage accepts
    (no failure raised, the sample row present when samples are given, the
    display id of the problem not held by another row): every locale of the
    problem's current [locales] that the request does not list has its
    title and content rows deleted; a non-null title or content sections
    of a requested locale is stored as given (the last one given, should the
    request list the locale twice); a field that is null in the request
    keeps the stored value; and the stored problem's [locales] is the list
    of the locales of the request. *)
Theorem updateProblemStatement_reconciles problem request tags w :
  let pid := ProblemEntity.id problem in
  let entries := requestLocalizedContents request in
  let before := localizedContentTable (committed w) in
  faultAfter w = None →
  (is_Some (requestSamples request) → is_Some (problemSampleTable (committed w) !! pid)) →
  displayIdTaken problem (committed w) = false →
  ∃ w',
    updateProblemStatement JSON_stringify problem request tags w = (Return true, w')
    ∧ (∀ l, l ∈ ProblemEntity.locales problem → l ∉ updateLocale <$> entries →
         localizedContentTable (committed w') !! (pid, PROBLEM_TITLE, l) = None
         ∧ localizedContentTable (committed w') !! (pid, PROBLEM_CONTENT, l) = None)
    ∧ (∀ pre e post ty data,
         entries = (pre ++ e :: post)%list →
         requested JSON_stringify ty e = Some data →
         (∀ e', e' ∈ post → updateLocale e' = updateLocale e →
                requested JSON_stringify ty e' = None) →
         localizedContentTable (committed w') !! (pid, ty, updateLocale e) = Some data)
    ∧ (∀ l ty,
         l ∈ updateLocale <$> entries →
         (∀ e, e ∈ entries → updateLocale e = l → requested JSON_stringify ty e = None) →
         localizedContentTable (committed w') !! (pid, ty, l) = before !! (pid, ty, l))
    ∧ (ProblemEntity.locales <$> problemTable (committed w') !! pid)
      = Some (updateLocale <$> entries).
Proof.
  intros pid entries before Hf Hsample Htaken.
  destruct (updateProblemStatement_accepted problem request tags w Hf Hsample Htaken)
    as (w' & Hrun & Hcommitted & _).
  exists w'. split; [done|]. rewrite Hcommitted.
  split; [|split; [|split]].
  - intros l Hold Hnew.
    assert (l ∈ deletingLocalesOf problem request) as Hdel
      by (by apply deletingLocalesOf_elem).
    rewrite !contents_after_update.
    by rewrite !bool_decide_eq_true_2.
  - intros pre e post ty data Hentries Hreq Hpost.
    rewrite contents_after_update.
    rewrite bool_decide_eq_false_2.
    + rewrite bool_decide_eq_true_2 by done. fold entries. rewrite Hentries.
      by erewrite lastRequested_last.
    + intros (_ & _ & Hdel). apply deletingLocalesOf_elem in Hdel as [_ Hdel].
      apply Hdel. unfold newLocalesOf. fold entries. rewrite Hentries.
      rewrite fmap_app, fmap_cons. apply elem_of_app. right. by left.
  - intros l ty Hl Hnone.
    rewrite contents_after_update.
    rewrite bool_decide_eq_false_2.
    + rewrite bool_decide_eq_true_2 by done.
      apply lastRequested_None in Hnone. fold entries. by rewrite Hnone.
    + intros (_ & _ & Hdel). by apply deletingLocalesOf_elem in Hdel as [_ Hdel].
  - rewrite problems_after_update. by rewrite lookup_insert_eq.
Qed.

(** *** Creation *)

Variable getDefaultJudgeInfo : string → string.

Lemma displayIdTaken_None p db :
  ProblemEntity.displayId p = None → displayIdTaken p db = false.
Proof.
  intros Hnone. unfold displayIdTaken. apply bool_decide_eq_false.
  intros (k & q & _ & _ & [d Hd] & _). by rewrite Hnone in Hd.
Qed.

Lemma creates_accepted pid (entries : list ProblemLocalizedContentDto) w :
  faultAfter w = None →
  forEach entries (λ localizedContent,
      LocalizedContentService.createOrUpdate pid PROBLEM_TITLE
        (locale localizedContent) (title localizedContent) (Some Transactional);;
      LocalizedContentService.createOrUpdate pid PROBLEM_CONTENT
        (locale localizedContent) (JSON_stringify (contentSections localizedContent))
        (Some Transactional)) w
  = (Return (),
     acceptAll ((Transactional,.) <$>
                  concat (upsertsOf JSON_stringify pid <$> (asUpdate <$> entries))) w).
Proof.
  intros Hf.
  rewrite (forEach_accepted _ _
             (λ e, (Transactional,.) <$> upsertsOf JSON_stringify pid (asUpdate e)));
    [|..|done].
  - by rewrite tag_concat, <- list_fmap_compose.
  - intros e w' _ Hf'. unfold LocalizedContentService.createOrUpdate. simpl.
    erewrite bind_accepted by (by apply execute_accepted).
    rewrite execute_accepted; [done| by rewrite faultAfter_accept |done].
Qed.

Lemma createProblem_accepted owner type statement tags w :
  faultAfter w = None →
  let problem :=
    ProblemEntity.mk (nextProblemId w) None type false (UserEntity.id owner)
      (locale <$> localizedContents statement) in
  ∃ w',
    createProblem JSON_stringify getDefaultJudgeInfo owner type statement tags w
      = (Return problem, w')
    ∧ committed w'
      = applyAll
          ([SaveProblem problem;
            SaveProblemJudgeInfo (nextProblemId w) (getDefaultJudgeInfo type);
            SaveProblemSample (nextProblemId w) (samples statement)]
           ++ concat (upsertsOf JSON_stringify (nextProblemId w)
                        <$> (asUpdate <$> localizedContents statement))
           ++ tagStatements problem tags)
          (committed w).
Proof.
  intros Hf problem.
  set (w0 := {| committed := committed w; pending := []; issued := issued w;
                faultAfter := faultAfter w; nextProblemId := nextProblemId w + 1 |}).
  set (stmts := ([SaveProblem problem;
            SaveProblemJudgeInfo (nextProblemId w) (getDefaultJudgeInfo type);
            SaveProblemSample (nextProblemId w) (samples statement)]
           ++ concat (upsertsOf JSON_stringify (nextProblemId w)
                        <$> (asUpdate <$> localizedContents statement))
           ++ tagStatements problem tags)%list).
  assert (createProblem JSON_stringify getDefaultJudgeInfo owner type statement tags w
          = (Return problem,
             setPending []
               (setCommitted (view Transactional (acceptAll ((Transactional,.) <$> stmts) w0))
                  (acceptAll ((Transactional,.) <$> stmts) w0)))) as Hrun.
  { unfold createProblem, transaction.
    unfold bind at 1, freshProblemId.
    cbn [setPending committed pending issued faultAfter nextProblemId].
    fold w0. fold problem. cbn [ProblemEntity.id problem].
    erewrite bind_accepted
      by (apply execute_accepted; [done | cbn [rejects]; by rewrite displayIdTaken_None]).
    erewrite bind_accepted by (by apply execute_accepted).
    erewrite bind_accepted by (by apply execute_accepted).
    erewrite bind_accepted by (by apply creates_accepted).
    erewrite bind_accepted
      by (apply setProblemTags_accepted; by rewrite faultAfter_acceptAll).
    unfold ret. subst stmts. rewrite !fmap_app, !acceptAll_app. reflexivity. }
  eexists. split; [exact Hrun|].
  cbn [committed setPending setCommitted].
  by rewrite view_acceptAll_same.
Qed.

End StatementProofs.

(** ** The locales invariant *)

Section LocalesInvariant.
Variable JSON_stringify : list ProblemContentSection → string.
Variable getDefaultJudgeInfo : string → string.

Lemma requested_asUpdate ty e :
  ty ≠ PROBLEM_TAG_NAME → is_Some (requested JSON_stringify ty (asUpdate e)).
Proof. destruct ty; [by eexists | by eexists | done]. Qed.

Lemma createProblem_keeps_invariant owner type statement tags w :
  localesInvariant (committed w) →
  faultAfter w = None →
  (∀ l, l ∉ locale <$> localizedContents statement →
        ¬ hasStatement (committed w) (nextProblemId w) l) →
  ∃ problem w',
    createProblem JSON_stringify getDefaultJudgeInfo owner type statement tags w
      = (Return problem, w')
    ∧ localesInvariant (committed w').
Proof.
  intros Hinv Hf Hfresh.
  destruct (createProblem_accepted JSON_stringify getDefaultJudgeInfo
              owner type statement tags w Hf) as (w' & Hrun & Hcommitted).
  eexists _, w'. split; [exact Hrun|].
  set (pid := nextProblemId w) in *.
  set (entries := asUpdate <$> localizedContents statement) in *.
  assert (∀ oid ty l,
            localizedContentTable (committed w') !! (oid, ty, l)
            = match (if bool_decide (oid = pid)
                     then lastRequested JSON_stringify ty l entries else None) with
              | Some data => Some data
              | None => localizedContentTable (committed w) !! (oid, ty, l)
              end) as Hcontents.
  { intros oid ty l. rewrite Hcommitted, !applyAll_app.
    rewrite (applyAll_preserves localizedContentTable (tagStatements _ _))
      by apply keeps_tagStatements.
    rewrite contents_upserts.
    by rewrite (applyAll_preserves localizedContentTable [_; _; _]) by repeat constructor. }
  assert (problemTable (committed w')
          = <[pid := ProblemEntity.mk pid None type false (UserEntity.id owner)
                       (locale <$> localizedContents statement)]>
              (problemTable (committed w))) as Hproblems.
  { rewrite Hcommitted, !applyAll_app.
    rewrite (applyAll_preserves problemTable (tagStatements _ _))
      by apply keeps_tagStatements.
    rewrite (applyAll_preserves problemTable (concat _)) by apply keepsProblems_upserts.
    done. }
  intros k p Hk l. rewrite Hproblems in Hk. unfold hasStatement. rewrite !Hcontents.
  destruct (decide (k = pid)) as [->|Hne].
  - rewrite lookup_insert_eq in Hk. injection Hk as <-.
    cbn [ProblemEntity.locales]. rewrite !bool_decide_eq_true_2 by done.
    assert ((locale <$> localizedContents statement) = (updateLocale <$> entries)) as Hlocales.
    { subst entries. by rewrite <- list_fmap_compose. }
    rewrite Hlocales. split.
    + intros Hl. apply list_elem_of_fmap in Hl as (e & -> & He).
      assert (∀ ty, ty ≠ PROBLEM_TAG_NAME →
                is_Some (lastRequested JSON_stringify ty (updateLocale e) entries)) as Hsome.
      { intros ty Hty.
        destruct (lastRequested JSON_stringify ty (updateLocale e) entries) eqn:Hlast;
          [by eexists|].
        pose proof (proj1 (lastRequested_None _ _ _ _) Hlast e He eq_refl) as Hnone.
        subst entries. apply list_elem_of_fmap in He as (e0 & -> & _).
        destruct (requested_asUpdate ty e0 Hty) as [x Hx]. by rewrite Hx in Hnone. }
      split.
      * destruct (Hsome PROBLEM_TITLE) as [x ->]; [done | by eexists].
      * destruct (Hsome PROBLEM_CONTENT) as [x ->]; [done | by eexists].
    + intros [Htitle Hcontent].
      destruct (decide (l ∈ updateLocale <$> entries)) as [|Hl]; [done|].
      assert (∀ ty, lastRequested JSON_stringify ty l entries = None) as Hnone.
      { intros ty. destruct (lastRequested JSON_stringify ty l entries) eqn:Hlast; [|done].
        apply lastRequested_Some in Hlast as (e & He & <- & _). exfalso. apply Hl.
        apply list_elem_of_fmap. by exists e. }
      rewrite Hnone in Htitle, Hcontent.
      destruct (Hfresh l); [by rewrite Hlocales | by split].
  - rewrite lookup_insert_ne in Hk by done.
    rewrite !bool_decide_eq_false_2 by done. by apply Hinv.
Qed.

Lemma contents_after_update_other problem request tags db oid ty l :
  oid ≠ ProblemEntity.id problem →
  localizedContentTable
    (applyAll (transactionStatements problem request tags)
       (applyAll (upsertStatements JSON_stringify problem request) db)) !! (oid, ty, l)
  = localizedContentTable db !! (oid, ty, l).
Proof.
  intros Hne. rewrite contents_after_update.
  repeat case_bool_decide; try done; exfalso; tauto.
Qed.

Lemma updateProblemStatement_keeps_invariant problem request tags w :
  let pid := ProblemEntity.id problem in
  let entries := requestLocalizedContents request in
  localesInvariant (committed w) →
  problemTable (committed w) !! pid = Some problem →
  faultAfter w = None →
  (is_Some (requestSamples request) → is_Some (problemSampleTable (committed w) !! pid)) →
  displayIdTaken problem (committed w) = false →
  (∀ l, l ∈ updateLocale <$> entries → l ∉ ProblemEntity.locales problem →
        (∃ e, e ∈ entries ∧ updateLocale e = l ∧ is_Some (updateTitle e))
        ∧ (∃ e, e ∈ entries ∧ updateLocale e = l ∧ is_Some (updateContentSections e))) →
  ∃ w',
    updateProblemStatement JSON_stringify problem request tags w = (Return true, w')
    ∧ localesInvariant (committed w').
Proof.
  intros pid entries Hinv Hrow Hf Hsample Htaken Hnew.
  destruct (updateProblemStatement_accepted JSON_stringify problem request tags w
              Hf Hsample Htaken) as (w' & Hrun & Hcommitted & _).
  exists w'. split; [done|].
  assert (∀ ty l, ty ≠ PROBLEM_TAG_NAME → l ∈ updateLocale <$> entries →
            is_Some (localizedContentTable (committed w') !! (pid, ty, l))) as Hpresent.
  { intros ty l Hty Hl. rewrite Hcommitted, contents_after_update.
    rewrite bool_decide_eq_false_2.
    2:{ intros (_ & _ & Hdel). by apply deletingLocalesOf_elem in Hdel as [_ Hdel]. }
    rewrite bool_decide_eq_true_2 by done.
    destruct (lastRequested JSON_stringify ty l (requestLocalizedContents request))
      eqn:Hlast; [by eexists|].
    pose proof (proj1 (lastRequested_None _ _ _ _) Hlast) as Hnone.
    destruct (decide (l ∈ ProblemEntity.locales problem)) as [Hold|Hold].
    - apply (Hinv _ _ Hrow) in Hold as [Ht Hc]. by destruct ty.
    - destruct (Hnew l Hl Hold) as [(e & He & Hel & [x Hx]) (e' & He' & Hel' & [x' Hx'])].
      destruct ty; [| |done].
      + specialize (Hnone e He Hel). simpl in Hnone. by rewrite Hx in Hnone.
      + specialize (Hnone e' He' Hel'). simpl in Hnone. by rewrite Hx' in Hnone. }
  assert (∀ l, l ∉ updateLocale <$> entries →
            ¬ hasStatement (committed w') pid l) as Habsent.
  { intros l Hl [Htitle Hcontent]. revert Htitle Hcontent.
    rewrite Hcommitted, !contents_after_update.
    assert (∀ ty, lastRequested JSON_stringify ty l (requestLocalizedContents request) = None)
      as Hlast.
    { intros ty.
      destruct (lastRequested JSON_stringify ty l (requestLocalizedContents request))
        eqn:Hlast; [|done].
      apply lastRequested_Some in Hlast as (e & He & <- & _). exfalso. apply Hl.
      apply list_elem_of_fmap. by exists e. }
    rewrite !Hlast. rewrite !(bool_decide_eq_true_2 (pid = _)) by done.
    destruct (decide (l ∈ ProblemEntity.locales problem)) as [Hold|Hold].
    - rewrite bool_decide_eq_true_2; [by intros [? ?]|].
      repeat split; [done|]. by apply deletingLocalesOf_elem.
    - rewrite !bool_decide_eq_false_2
        by (intros (_ & _ & Hdel); by apply deletingLocalesOf_elem in Hdel as [? _]).
      intros Htitle Hcontent. apply Hold. by apply (Hinv _ _ Hrow). }
  intros k p Hk l. rewrite Hcommitted, problems_after_update in Hk.
  destruct (decide (k = pid)) as [->|Hne].
  - rewrite lookup_insert_eq in Hk. injection Hk as <-.
    cbn [ProblemEntity.locales ProblemEntity.withLocales].
    unfold newLocalesOf. fold entries. split.
    + intros Hl. split; by apply Hpresent.
    + intros Hhas. destruct (decide (l ∈ updateLocale <$> entries)) as [|Hl]; [done|].
      by destruct (Habsent l Hl).
  - rewrite lookup_insert_ne in Hk by done.
    unfold hasStatement. rewrite Hcommitted, !contents_after_update_other by done.
    by apply Hinv.
Qed.

(** C2, amended: the invariant [locales] = the locales that have both a title
    row and a content row is kept by the calls that complete, under the
    conditions below, not by every call.

    [createProblem]: when the storage accepts every statement and, under the
    id the new problem receives, no locale outside the statement's has both
    rows already (nothing is asked of rows of other types, such as the name
    of a tag with the same numeric id, nor of a lone title or content row).

    [updateProblemStatement]: when the problem passed in is the stored row,
    the call is not aborted (the storage accepts every statement, the
    sample row exists if samples are given, and no other problem holds the
    display id of the problem) and every requested locale that the problem
    did not have yet comes with both a title and content sections. *)
Theorem locales_invariant_preserved :
  (∀ owner type statement tags w,
     localesInvariant (committed w) →
     faultAfter w = None →
     (∀ l, l ∉ locale <$> localizedContents statement →
           ¬ hasStatement (committed w) (nextProblemId w) l) →
     ∃ problem w',
       createProblem JSON_stringify getDefaultJudgeInfo owner type statement tags w
         = (Return problem, w')
       ∧ localesInvariant (committed w'))
  ∧ (∀ problem request tags w,
       localesInvariant (committed w) →
       problemTable (committed w) !! ProblemEntity.id problem = Some problem →
       faultAfter w = None →
       (is_Some (requestSamples request) →
        is_Some (problemSampleTable (committed w) !! ProblemEntity.id problem)) →
       displayIdTaken problem (committed w) = false →
       (∀ l, l ∈ updateLocale <$> requestLocalizedContents request →
             l ∉ ProblemEntity.locales problem →
             (∃ e, e ∈ requestLocalizedContents request ∧ updateLocale e = l
                   ∧ is_Some (updateTitle e))
             ∧ (∃ e, e ∈ requestLocalizedContents request ∧ updateLocale e = l
                     ∧ is_Some (updateContentSections e))) →
       ∃ w',
         updateProblemStatement JSON_stringify problem request tags w = (Return true, w')
         ∧ localesInvariant (committed w')).
Proof.
  split.
  - apply createProblem_keeps_invariant.
  - apply updateProblemStatement_keeps_invariant.
Qed.

End LocalesInvariant.

(** ** The sample problem *)

Lemma emptyDatabase_invariant : localesInvariant emptyDatabase.
Proof. intros k p Hk. cbn [emptyDatabase problemTable] in Hk. by rewrite lookup_empty in Hk. Qed.

Lemma w_created_invariant : localesInvariant (committed w_created).
Proof.
  destruct (createProblem_keeps_invariant exampleStringify exampleJudgeInfo
              owner10 "Traditional" statement_en [] w_empty)
    as (p & w' & Hrun & Hinv).
  - apply emptyDatabase_invariant.
  - done.
  - intros l _ [[x Hx] _]. cbn in Hx. by rewrite lookup_empty in Hx.
  - unfold w_created. by rewrite Hrun.
Qed.

Lemma localesInvariant_tag_name db oid l data :
  localesInvariant db →
  localesInvariant (applyStatement (UpsertLocalizedContent oid PROBLEM_TAG_NAME l data) db).
Proof.
  intros Hinv k p Hk l'. rewrite (Hinv k p Hk l'). unfold hasStatement.
  cbn [applyStatement localizedContentTable setLocalizedContentTable].
  by rewrite !lookup_insert_ne by (intros [= ? ? ?]; done).
Qed.

Lemma localesInvariant_no_problem db oid ty l data :
  problemTable db !! oid = None →
  localesInvariant db →
  localesInvariant (applyStatement (UpsertLocalizedContent oid ty l data) db).
Proof.
  intros Hnone Hinv k p Hk l'. rewrite (Hinv k p Hk l'). unfold hasStatement.
  cbn [applyStatement localizedContentTable setLocalizedContentTable].
  assert (k ≠ oid) as Hne.
  { intros ->. cbn [applyStatement problemTable setLocalizedContentTable] in Hk. congruence. }
  by rewrite !lookup_insert_ne by (intros [= ? ? ?]; done).
Qed.

Lemma w_named_invariant fault : localesInvariant (committed (w_named fault)).
Proof.
  cbn [w_named committed setFaultAfter setCommitted applyAll foldl].
  do 2 apply localesInvariant_tag_name. apply w_created_invariant.
Qed.

Lemma w_created_problem1 : problemTable (committed w_created) !! 1 = Some problem1.
Proof. vm_compute. reflexivity. Qed.

(** C1: evaluated on the sample problem.  The request changes the English
    title and the storage fails on the insert of the tag rows, the third
    statement of the call.  The call throws and its transaction is rolled
    back, but the title upsert was sent through the repository of the
    content store, not through the transaction, and stays: the stored title
    is the new one although the update was aborted. *)
Theorem updateProblemStatement_upsert_survives_rollback :
  let w := setFaultAfter (Some 2%nat) w_created in
  let outcome := updateProblemStatement exampleStringify problem1 request_title_only [tag7] w in
  outcome.1 = Throw StorageFailure
  ∧ issued outcome.2
    = (issued w
       ++ [(Repository, UpsertLocalizedContent 1 PROBLEM_TITLE "en" "Sum of two numbers");
           (Transactional, DeleteProblemTagMaps 1);
           (Transactional, InsertProblemTagMaps [(1, 7)])])%list
  ∧ localizedContentTable (committed w) !! (1, PROBLEM_TITLE, "en") = Some "A+B Problem"
  ∧ localizedContentTable (committed outcome.2) !! (1, PROBLEM_TITLE, "en")
    = Some "Sum of two numbers"
  ∧ committed outcome.2 ≠ committed w.
Proof.
  intros w outcome. subst w outcome.
  split; [by vm_compute|]. split; [by vm_compute|].
  split; [by vm_compute|]. split; [by vm_compute|].
  intros Heq.
  apply (f_equal (λ db, localizedContentTable db !! (1, PROBLEM_TITLE, "en"))) in Heq.
  vm_compute in Heq. discriminate.
Qed.

(** The invariant holds after the creation of the sample problem, the
    update that adds a French title without content sections succeeds, and
    the invariant is lost: "fr" is among the locales of the stored problem
    and has no content row. *)
Lemma updateProblemStatement_new_locale_breaks_invariant :
  let outcome :=
    updateProblemStatement exampleStringify problem1 request_new_locale [] w_created in
  localesInvariant (committed w_created)
  ∧ outcome.1 = Return true
  ∧ ¬ localesInvariant (committed outcome.2).
Proof.
  intros outcome. subst outcome.
  split; [apply w_created_invariant|]. split; [by vm_compute|].
  intros Hinv.
  specialize (Hinv 1 (ProblemEntity.withLocales problem1 ["en"; "fr"])).
  destruct (Hinv ltac:(by vm_compute) "fr") as [Hhas _].
  destruct Hhas as [_ [data Hcontent]].
  - right. left.
  - vm_compute in Hcontent. discriminate.
Qed.

(** The condition of [createProblem] on the rows under the new id cannot be
    dropped.  [createProblem] deletes nothing: a locale that has both rows
    under that id and is not in the statement keeps them, and is not among
    the [locales] of the created problem. *)
Lemma createProblem_keeps_rows_under_new_id :
  let outcome :=
    createProblem exampleStringify exampleJudgeInfo owner10 "Traditional" statement_zh []
      w_stale in
  localesInvariant (committed w_stale)
  ∧ hasStatement (committed w_stale) (nextProblemId w_stale) "fr"
  ∧ (∃ problem, outcome.1 = Return problem ∧ ProblemEntity.locales problem = ["zh"])
  ∧ ¬ localesInvariant (committed outcome.2).
Proof.
  intros outcome. subst outcome. split; [|split; [|split]].
  - cbn [w_stale committed setCommitted applyAll foldl].
    apply localesInvariant_no_problem; [by vm_compute|].
    apply localesInvariant_no_problem; [by vm_compute|].
    apply w_created_invariant.
  - split; vm_compute; by eexists.
  - eexists. split; vm_compute; reflexivity.
  - intros Hinv.
    specialize (Hinv 2 (ProblemEntity.mk 2 None "Traditional" false 10 ["zh"])).
    destruct (Hinv ltac:(by vm_compute) "fr") as [_ Hin].
    assert ("fr" ∈ ["zh"]) as Hfr.
    { apply Hin. split; vm_compute; by eexists. }
    apply list_elem_of_singleton in Hfr. discriminate Hfr.
Qed.

(** *** Instances *)

Lemma locales_invariant_preserved_witness :
  (∃ problem w',
     createProblem exampleStringify exampleJudgeInfo owner10 "Traditional" statement_zh [tag7]
       (w_named None) = (Return problem, w')
     ∧ localesInvariant (committed w'))
  ∧ (∃ w',
       updateProblemStatement exampleStringify problem1 request_add_locale [tag7] w_created
         = (Return true, w')
       ∧ localesInvariant (committed w')).
Proof.
  destruct (locales_invariant_preserved exampleStringify exampleJudgeInfo)
    as [Hcreate Hupdate].
  split.
  - apply Hcreate.
    + apply w_named_invariant.
    + reflexivity.
    + intros l _ [[x Hx] _]. apply elem_of_map_to_list in Hx. vm_compute in Hx.
      repeat (apply elem_of_cons in Hx as [Hx|Hx]; [discriminate Hx|]).
      by apply elem_of_nil in Hx.
  - apply Hupdate.
    + apply w_created_invariant.
    + apply w_created_problem1.
    + reflexivity.
    + intros _. vm_compute. by eexists.
    + vm_compute. reflexivity.
    + intros l Hl Hold.
      apply elem_of_cons in Hl as [->|Hl]; [by destruct Hold; left|].
      apply list_elem_of_singleton in Hl as ->.
      split; eexists; (split; [right; left|]); (split; [reflexivity | by eexists]).
Defined.

Lemma updateProblemStatement_reconciles_witness :
  ∃ w',
    updateProblemStatement exampleStringify problem1 request_title_only [tag7] w_created
      = (Return true, w')
    ∧ localizedContentTable (committed w') !! (1, PROBLEM_TITLE, "en")
      = Some "Sum of two numbers"
    ∧ localizedContentTable (committed w') !! (1, PROBLEM_CONTENT, "en")
      = localizedContentTable (committed w_created) !! (1, PROBLEM_CONTENT, "en").
Proof.
  destruct (updateProblemStatement_reconciles exampleStringify problem1 request_title_only
              [tag7] w_created)
    as (w' & Hrun & _ & Hupsert & Hkeep & _).
  - reflexivity.
  - intros _. vm_compute. by eexists.
  - vm_compute. reflexivity.
  - exists w'. split; [exact Hrun|]. split.
    + apply (Hupsert [] {| updateLocale := "en"; updateTitle := Some "Sum of two numbers";
                           updateContentSections := None |} [] PROBLEM_TITLE).
      * reflexivity.
      * reflexivity.
      * intros e' He'. by apply elem_of_nil in He'.
    + apply (Hkeep "en" PROBLEM_CONTENT).
      * left.
      * intros e He _. apply list_elem_of_singleton in He. by subst e.
Defined.

Lemma manage_publicness_admin_or_privilege_only_witness :
  userHasPermission {| grants := []; memberships := []; privileges := [] |}
    {| allowOwnerManageProblemPermission := true; allowOwnerDeleteProblem := true;
       allowEveryoneCreateProblem := true |}
    (Some owner10) problem1 MANAGE_PUBLICNESS = false.
Proof.
  apply (proj2 (proj2 (manage_publicness_admin_or_privilege_only
                         {| grants := []; memberships := []; privileges := [] |}
                         {| allowOwnerManageProblemPermission := true;
                            allowOwnerDeleteProblem := true;
                            allowEveryoneCreateProblem := true |}
                         problem1)) owner10).
  - reflexivity.
  - reflexivity.
  - reflexivity.
Defined.

Lemma setProblemDisplayId_failure_witness :
  (setProblemDisplayId problem2 (Some 5) (w_displayId None)).1 = Return false.
Proof.
  refine (proj1 (setProblemDisplayId_failure problem2 (Some 5) (w_displayId None)
                   ER_DUP_ENTRY
                   (logStatement Repository
                      (SaveProblem (ProblemEntity.withDisplayId problem2 (Some 5)))
                      (w_displayId None)) _ _) _).
  - discriminate.
  - vm_compute. reflexivity.
  - reflexivity.
Defined.

Lemma renameProblemFile_in_place_witness :
  (renameProblemFile problem1 "TestData" "a.in" "c.in" w_files).1 = Return true.
Proof.
  apply (proj1 (proj2 (renameProblemFile_in_place problem1 "TestData" "a.in" "c.in" w_files))
           "uuid-a").
  - vm_compute. reflexivity.
  - reflexivity.
  - right. vm_compute. reflexivity.
Defined.

Lemma setProblemTags_replaces_witness :
  (setProblemTags problem1 [tag7] Transactional w_created).1 = Return ().
Proof.
  apply (proj1 (setProblemTags_replaces problem1 [tag7] Transactional w_created)).
  reflexivity.
Defined.

(** Clearing the display id cannot conflict, yet a storage failure on that
    save is answered with false as soon as some problem has no display id. *)
Example setProblemDisplayId_clear_swallows_storage_failure :
  let holder := ProblemEntity.mk 1 (Some 5) "Traditional" false 10 ["en"] in
  (setProblemDisplayId holder (Some 0) (w_displayId (Some 0%nat))).1 = Return false.
Proof. vm_compute. reflexivity. Qed.

(** * Further properties *)

(** ** Permission matrix *)

Lemma userOrItsGroupsHavePermission_WRITE_READ acl user obj kind :
  userOrItsGroupsHavePermission acl user obj kind WRITE = true →
  userOrItsGroupsHavePermission acl user obj kind READ = true.
Proof.
  unfold userOrItsGroupsHavePermission. rewrite !bool_decide_eq_true. simpl. lia.
Qed.

(** X1: whoever may modify a problem may view it: the owner, admin and
    privilege rules are shared, and a WRITE entry satisfies the READ
    requirement. *)
Theorem modify_implies_view acl preference user problem :
  userHasPermission acl preference user problem MODIFY = true →
  userHasPermission acl preference user problem VIEW = true.
Proof.
  unfold userHasPermission.
  destruct (ProblemEntity.isPublic problem); [done|].
  destruct user as [u|]; [|done].
  repeat case_match; try done.
  apply userOrItsGroupsHavePermission_WRITE_READ.
Qed.

(** X2: a system admin, and a holder of the manage-problem privilege, pass
    every permission type on every problem, whatever the owner, the
    publicness, the ACL and the preference flags. *)
Theorem admin_or_privileged_passes_everything acl preference u problem type :
  UserEntity.isAdmin u = true ∨ userHasPrivilege acl u MANAGE_PROBLEM = true →
  userHasPermission acl preference (Some u) problem type = true.
Proof.
  intros Hpower. unfold userHasPermission.
  destruct type; repeat case_match; try done; by destruct Hpower.
Qed.

(** X3: an absent actor is granted exactly one thing, VIEW on a public
    problem; it may not create a problem either, even when the preference
    lets everyone create problems. *)
Theorem anonymous_only_views_public acl preference problem type :
  (userHasPermission acl preference None problem type = true
   ↔ type = VIEW ∧ ProblemEntity.isPublic problem = true)
  ∧ userHasCreateProblemPermission acl preference None = false.
Proof.
  split; [|done].
  unfold userHasPermission. destruct type; simpl.
  - destruct (ProblemEntity.isPublic problem); split; try done. by intros [_ ?].
  - split; [done | by intros [? _]].
  - split; [done | by intros [? _]].
  - split; [done | by intros [? _]].
  - split; [done | by intros [? _]].
Qed.

(** X4: for a user who is neither admin nor privileged, ACL entries never
    give a management right: MANAGE_PERMISSION and DELETE are granted
    exactly to the owner when the matching preference flag is set, and
    MANAGE_PUBLICNESS is never granted. *)
Theorem plain_user_management_rights acl preference u problem :
  UserEntity.isAdmin u = false →
  userHasPrivilege acl u MANAGE_PROBLEM = false →
  let owner := bool_decide (UserEntity.id u = ProblemEntity.ownerId problem) in
  userHasPermission acl preference (Some u) problem MANAGE_PERMISSION
    = owner && allowOwnerManageProblemPermission preference
  ∧ userHasPermission acl preference (Some u) problem DELETE
    = owner && allowOwnerDeleteProblem preference
  ∧ userHasPermission acl preference (Some u) problem MANAGE_PUBLICNESS = false.
Proof.
  intros Hadmin Hpriv owner. subst owner. unfold userHasPermission.
  rewrite Hadmin, Hpriv. repeat split; by repeat case_match.
Qed.

(** ** Atomic operations *)

Lemma keepsCommitted_ret {A} (a : A) : keepsCommitted (ret a).
Proof. by intros w. Qed.

Lemma keepsCommitted_throw {A} (e : Error) : keepsCommitted (@throw A e).
Proof. by intros w. Qed.

Lemma keepsCommitted_query {A} m (read : Database → A) : keepsCommitted (query m read).
Proof. by intros w. Qed.

Lemma keepsCommitted_bind {A B} (m : M A) (k : A → M B) :
  keepsCommitted m → (∀ a, keepsCommitted (k a)) → keepsCommitted (bind m k).
Proof.
  intros Hm Hk w. unfold bind. specialize (Hm w).
  destruct (m w) as [[a|e] w']; simpl in *; [|done].
  by rewrite Hk.
Qed.

Lemma keepsCommitted_execute s : keepsCommitted (execute Transactional s).
Proof.
  intros w. unfold execute. cbn [faultAfter logStatement].
  destruct (faultAfter w) as [[|n]|]; cbn [fmap option_fmap option_map]; [done|..];
    destruct (rejects s _); done.
Qed.

Lemma keepsCommitted_forEach {A} (xs : list A) (body : A → M ()) :
  (∀ x, keepsCommitted (body x)) → keepsCommitted (forEach xs body).
Proof.
  intros Hbody. induction xs as [|x xs IH]; simpl.
  - apply keepsCommitted_ret.
  - apply keepsCommitted_bind; [apply Hbody | by intros _].
Qed.

Lemma keepsCommitted_freshProblemId : keepsCommitted freshProblemId.
Proof. by intros w. Qed.

Lemma keepsCommitted_setProblemTags problem tags :
  keepsCommitted (setProblemTags problem tags Transactional).
Proof.
  unfold setProblemTags. apply keepsCommitted_bind; [apply keepsCommitted_execute|].
  intros _. case_bool_decide; [apply keepsCommitted_ret | apply keepsCommitted_execute].
Qed.

(** A transaction whose body writes through the transaction only either
    returns, or throws and leaves the committed rows as they were. *)
Lemma transaction_rolls_back {A} (body : M A) w e :
  keepsCommitted body →
  (transaction body w).1 = Throw e →
  committed (transaction body w).2 = committed w.
Proof.
  intros Hbody. unfold transaction. specialize (Hbody (setPending [] w)).
  destruct (body (setPending [] w)) as [[a|e'] w']; simpl in *; [done|].
  by intros _.
Qed.

(** X5: [createProblem] is atomic.  Whatever statement the storage fails
    on, a call that throws leaves every committed table as it was: no
    problem, judge info, sample, localized content or tag row remains. *)
Theorem createProblem_atomic JSON_stringify getDefaultJudgeInfo owner type statement tags w e :
  (createProblem JSON_stringify getDefaultJudgeInfo owner type statement tags w).1 = Throw e →
  committed (createProblem JSON_stringify getDefaultJudgeInfo owner type statement tags w).2
  = committed w.
Proof.
  apply transaction_rolls_back.
  apply keepsCommitted_bind; [apply keepsCommitted_freshProblemId|]. intros id.
  repeat (apply keepsCommitted_bind; [apply keepsCommitted_execute|]; intros _).
  apply keepsCommitted_bind.
  { apply keepsCommitted_forEach. intros lc.
    apply keepsCommitted_bind; [apply keepsCommitted_execute|]. intros _.
    apply keepsCommitted_execute. }
  intros _. apply keepsCommitted_bind; [apply keepsCommitted_setProblemTags|].
  intros _. apply keepsCommitted_ret.
Qed.

(** X6: [addProblemFile] is atomic: when it throws, neither a problem file
    row nor a reference count of the file store has changed. *)
Theorem addProblemFile_atomic problem sha256 type filename w e :
  (addProblemFile problem sha256 type filename w).1 = Throw e →
  committed (addProblemFile problem sha256 type filename w).2 = committed w.
Proof.
  apply transaction_rolls_back.
  apply keepsCommitted_bind.
  { unfold FileService.tryReferenceFile.
    apply keepsCommitted_bind; [apply keepsCommitted_query|].
    intros [file|]; [|apply keepsCommitted_ret].
    apply keepsCommitted_bind; [apply keepsCommitted_execute|].
    intros _. apply keepsCommitted_ret. }
  intros fileUuid. destruct (falsyHandle fileUuid); [apply keepsCommitted_ret|].
  cbv zeta. apply keepsCommitted_bind; [apply keepsCommitted_query|].
  intros problemFile. apply keepsCommitted_bind.
  { destruct problemFile; [apply keepsCommitted_execute | apply keepsCommitted_ret]. }
  intros _. apply keepsCommitted_bind; [apply keepsCommitted_execute|].
  intros _. apply keepsCommitted_ret.
Qed.

(** ** Creation *)

Section Creation.
Variable JSON_stringify : list ProblemContentSection → string.
Variable getDefaultJudgeInfo : string → string.

Lemma createProblem_world owner type statement tags w :
  faultAfter w = None →
  let problem :=
    ProblemEntity.mk (nextProblemId w) None type false (UserEntity.id owner)
      (locale <$> localizedContents statement) in
  ∃ w',
    createProblem JSON_stringify getDefaultJudgeInfo owner type statement tags w
      = (Return problem, w')
    ∧ committed w' = applyAll (creationStatements JSON_stringify getDefaultJudgeInfo problem statement tags) (committed w)
    ∧ nextProblemId w' = nextProblemId w + 1
    ∧ faultAfter w' = None
    ∧ issued w'
      = (issued w ++ ((Transactional,.) <$> creationStatements JSON_stringify getDefaultJudgeInfo problem statement tags))%list.
Proof.
  intros Hf problem.
  set (w0 := {| committed := committed w; pending := []; issued := issued w;
                faultAfter := faultAfter w; nextProblemId := nextProblemId w + 1 |}).
  set (stmts := creationStatements JSON_stringify getDefaultJudgeInfo problem statement tags).
  assert (createProblem JSON_stringify getDefaultJudgeInfo owner type statement tags w
          = (Return problem,
             setPending []
               (setCommitted (view Transactional (acceptAll ((Transactional,.) <$> stmts) w0))
                  (acceptAll ((Transactional,.) <$> stmts) w0)))) as Hrun.
  { unfold createProblem, transaction.
    unfold bind at 1, freshProblemId.
    cbn [setPending committed pending issued faultAfter nextProblemId].
    fold w0. fold problem. cbn [ProblemEntity.id problem].
    erewrite bind_accepted
      by (apply execute_accepted; [done | cbn [rejects]; by rewrite displayIdTaken_None]).
    erewrite bind_accepted by (by apply execute_accepted).
    erewrite bind_accepted by (by apply execute_accepted).
    erewrite bind_accepted by (by apply creates_accepted).
    erewrite bind_accepted
      by (apply setProblemTags_accepted; by rewrite faultAfter_acceptAll).
    unfold ret. subst stmts. unfold creationStatements.
    rewrite !fmap_app, !acceptAll_app. reflexivity. }
  eexists. split; [exact Hrun|].
  cbn [committed setPending setCommitted nextProblemId faultAfter issued].
  rewrite view_acceptAll_same, nextProblemId_acceptAll, faultAfter_acceptAll, issued_acceptAll.
  done.
Qed.

Lemma upserts_preserve {B} (proj : Database → B) pid entries :
  (∀ objectId t l data db,
     proj (applyStatement (UpsertLocalizedContent objectId t l data) db) = proj db) →
  Forall (λ s, ∀ db, proj (applyStatement s db) = proj db)
    (concat (upsertsOf JSON_stringify pid <$> entries)).
Proof.
  intros Hupsert. apply Forall_concat_fmap. intros e. unfold upsertsOf.
  destruct (updateTitle e), (updateContentSections e); repeat constructor; apply Hupsert.
Qed.

Lemma tagStatements_preserve {B} (proj : Database → B) problem tags :
  (∀ pid db, proj (applyStatement (DeleteProblemTagMaps pid) db) = proj db) →
  (∀ rows db, proj (applyStatement (InsertProblemTagMaps rows) db) = proj db) →
  Forall (λ s, ∀ db, proj (applyStatement s db) = proj db) (tagStatements problem tags).
Proof. intros Hd Hi. destruct tags; repeat constructor; auto. Qed.

Lemma creation_tables problem statement tags db :
  let db' := applyAll (creationStatements JSON_stringify getDefaultJudgeInfo problem statement tags) db in
  let pid := ProblemEntity.id problem in
  problemTable db' = <[pid := problem]> (problemTable db)
  ∧ problemJudgeInfoTable db'
    = <[pid := getDefaultJudgeInfo (ProblemEntity.type problem)]> (problemJudgeInfoTable db)
  ∧ problemSampleTable db' = <[pid := samples statement]> (problemSampleTable db)
  ∧ problemTagMapTable db'
    = (List.filter (λ row, bool_decide (row.1 ≠ pid)) (problemTagMapTable db)
       ++ tagMapRows problem tags)%list
  ∧ problemTagTable db' = problemTagTable db
  ∧ problemFileTable db' = problemFileTable db
  ∧ fileTable db' = fileTable db.
Proof.
  intros db' pid. subst db' pid. unfold creationStatements.
  rewrite !applyAll_app.
  repeat split.
  - rewrite (applyAll_preserves problemTable (tagStatements _ _))
      by (by apply tagStatements_preserve).
    by rewrite (applyAll_preserves problemTable (concat _)) by (by apply upserts_preserve).
  - rewrite (applyAll_preserves problemJudgeInfoTable (tagStatements _ _))
      by (by apply tagStatements_preserve).
    by rewrite (applyAll_preserves problemJudgeInfoTable (concat _))
      by (by apply upserts_preserve).
  - rewrite (applyAll_preserves problemSampleTable (tagStatements _ _))
      by (by apply tagStatements_preserve).
    by rewrite (applyAll_preserves problemSampleTable (concat _))
      by (by apply upserts_preserve).
  - rewrite problemTagMapTable_tagStatements.
    by rewrite (applyAll_preserves problemTagMapTable (concat _))
      by (by apply upserts_preserve).
  - rewrite (applyAll_preserves problemTagTable (tagStatements _ _))
      by (by apply tagStatements_preserve).
    by rewrite (applyAll_preserves problemTagTable (concat _)) by (by apply upserts_preserve).
  - rewrite (applyAll_preserves problemFileTable (tagStatements _ _))
      by (by apply tagStatements_preserve).
    by rewrite (applyAll_preserves problemFileTable (concat _)) by (by apply upserts_preserve).
  - rewrite (applyAll_preserves fileTable (tagStatements _ _))
      by (by apply tagStatements_preserve).
    by rewrite (applyAll_preserves fileTable (concat _)) by (by apply upserts_preserve).
Qed.

(** X7: on a storage that raises no failure, [createProblem] returns a
    problem with the next id of the table, no display id, not public, owned
    by the caller, of the given type and with the locales of the statement;
    [findProblemById] finds it, other problems are untouched, its judge info is
    the default of its type, its sample is the statement's, its tag rows are
    one per given tag, and the next id moves on by one. *)
Theorem createProblem_creates owner type statement tags w :
  faultAfter w = None →
  ∃ problem w',
    createProblem JSON_stringify getDefaultJudgeInfo owner type statement tags w
      = (Return problem, w')
    ∧ problem = ProblemEntity.mk (nextProblemId w) None type false (UserEntity.id owner)
                  (locale <$> localizedContents statement)
    ∧ findProblemById (nextProblemId w) w' = (Return (Some problem), w')
    ∧ (∀ k, k ≠ nextProblemId w →
         problemTable (committed w') !! k = problemTable (committed w) !! k)
    ∧ problemJudgeInfoTable (committed w') !! nextProblemId w
      = Some (getDefaultJudgeInfo type)
    ∧ problemSampleTable (committed w') !! nextProblemId w = Some (samples statement)
    ∧ List.filter (λ row, bool_decide (row.1 = nextProblemId w))
        (problemTagMapTable (committed w'))
      = (λ problemTag, (nextProblemId w, ProblemTagEntity.id problemTag)) <$> tags
    ∧ nextProblemId w' = nextProblemId w + 1.
Proof.
  intros Hf.
  destruct (createProblem_world owner type statement tags w Hf)
    as (w' & Hrun & Hcommitted & Hnext & _).
  eexists _, w'. split; [exact Hrun|]. split; [done|].
  unfold findProblemById, query. cbn [view]. rewrite Hcommitted.
  match goal with |- context [creationStatements _ _ ?p _ _] => set (problem := p) end.
  destruct (creation_tables problem statement tags (committed w))
    as (-> & -> & -> & -> & _).
  cbn [ProblemEntity.id problem ProblemEntity.type].
  repeat split.
  - by rewrite lookup_insert_eq.
  - intros k Hk. by rewrite lookup_insert_ne.
  - by rewrite lookup_insert_eq.
  - by rewrite lookup_insert_eq.
  - rewrite List.filter_app.
    rewrite (filter_own_rows (nextProblemId w)).
    apply (filter_tagMapRows_own problem tags).
  - done.
Qed.

Lemma creation_contents problem statement tags db oid ty l :
  localizedContentTable (applyAll (creationStatements JSON_stringify getDefaultJudgeInfo problem statement tags) db)
    !! (oid, ty, l)
  = match (if bool_decide (oid = ProblemEntity.id problem)
           then lastRequested JSON_stringify ty l (asUpdate <$> localizedContents statement)
           else None) with
    | Some data => Some data
    | None => localizedContentTable db !! (oid, ty, l)
    end.
Proof.
  unfold creationStatements. rewrite !applyAll_app.
  rewrite (applyAll_preserves localizedContentTable (tagStatements _ _))
    by apply keeps_tagStatements.
  rewrite contents_upserts.
  by rewrite (applyAll_preserves localizedContentTable [_; _; _]) by repeat constructor.
Qed.

(** X8: what [createProblem] stores can be read back.  For an entry of the
    statement whose locale no later entry repeats,
    [getProblemLocalizedTitle] on the created problem gives the entry's
    title, and the stored content is the serialization of its sections. *)
Theorem createProblem_then_read owner type statement tags w pre e post :
  faultAfter w = None →
  localizedContents statement = (pre ++ e :: post)%list →
  (∀ e', e' ∈ post → locale e' ≠ locale e) →
  ∃ problem w',
    createProblem JSON_stringify getDefaultJudgeInfo owner type statement tags w
      = (Return problem, w')
    ∧ getProblemLocalizedTitle problem (locale e) w' = (Return (Some (title e)), w')
    ∧ localizedContentTable (committed w')
        !! (ProblemEntity.id problem, PROBLEM_CONTENT, locale e)
      = Some (JSON_stringify (contentSections e)).
Proof.
  intros Hf Hentries Hlast.
  destruct (createProblem_world owner type statement tags w Hf)
    as (w' & Hrun & Hcommitted & _).
  eexists _, w'. split; [exact Hrun|].
  assert (∀ ty data, requested JSON_stringify ty (asUpdate e) = Some data →
            localizedContentTable (committed w') !! (nextProblemId w, ty, locale e)
            = Some data) as Hstored.
  { intros ty data Hreq. rewrite Hcommitted, creation_contents.
    cbn [ProblemEntity.id]. rewrite bool_decide_eq_true_2 by done.
    rewrite Hentries, fmap_app, fmap_cons.
    change (locale e) with (updateLocale (asUpdate e)).
    erewrite lastRequested_last; [done|exact Hreq|].
    intros e' He' Hl. apply list_elem_of_fmap in He' as (e0 & -> & He0).
    by destruct (Hlast e0 He0). }
  split.
  - unfold getProblemLocalizedTitle, localizedContentGet, query.
    cbn [view ProblemEntity.id]. by rewrite (Hstored PROBLEM_TITLE (title e)).
  - cbn [ProblemEntity.id]. by apply Hstored.
Qed.

Lemma answersById_stored {A} (getId : A → Z) (table : gmap Z A) (xs : list A)
    (result : list (option A)) :
  (∀ k r, table !! k = Some r → getId r = k) →
  (∀ x, x ∈ xs → table !! getId x = Some x) →
  answersById getId table (getId <$> xs) result →
  result = Some <$> xs.
Proof.
  intros Hkeys Hstored (Hlen & Hanswers & _).
  apply list_eq. intros i. rewrite list_lookup_fmap.
  destruct (xs !! i) as [x|] eqn:Hx; simpl.
  - destruct (Hanswers i (getId x)) as (o & -> & Ho).
    { by rewrite list_lookup_fmap, Hx. }
    f_equal. assert (table !! getId x = Some x) as Hrow.
    { apply Hstored. by apply list_elem_of_lookup_2 in Hx. }
    destruct o as [r|].
    + destruct Ho as [Hid [k Hk]]. pose proof (Hkeys _ _ Hk) as Hkey.
      rewrite Hid in Hkey. subst k. rewrite Hrow in Hk. by injection Hk as ->.
    + by destruct (Ho _ _ Hrow).
  - apply lookup_ge_None. rewrite Hlen, length_fmap. by apply lookup_ge_None.
Qed.

(** X9: the tags given to [createProblem], distinct tags that are rows of
    the tag table stored under their ids, are the tags
    [getProblemTagsByProblem] returns for the created problem.  The
    association rows are read without [ORDER BY], so the order of the result
    is whatever order the storage returns the rows in: for every such order
    the result is a rearrangement of the tags given, none missing and none
    added. *)
Theorem createProblem_then_getProblemTagsByProblem rowOrder owner type statement tags w :
  (∀ rows, rowOrder rows ≡ₚ rows) →
  faultAfter w = None →
  NoDup (ProblemTagEntity.id <$> tags) →
  (∀ k t, problemTagTable (committed w) !! k = Some t → ProblemTagEntity.id t = k) →
  (∀ t, t ∈ tags → problemTagTable (committed w) !! ProblemTagEntity.id t = Some t) →
  ∃ problem w' result,
    createProblem JSON_stringify getDefaultJudgeInfo owner type statement tags w
      = (Return problem, w')
    ∧ getProblemTagsByProblem rowOrder problem w' = (Return result, w')
    ∧ result ≡ₚ Some <$> tags.
Proof.
  intros Horder Hf _ Hkeys Hstored.
  destruct (createProblem_world owner type statement tags w Hf)
    as (w' & Hrun & Hcommitted & _).
  match type of Hcommitted with context [creationStatements _ _ ?p _ _] => set (problem := p) in * end.
  destruct (creation_tables problem statement tags (committed w))
    as (_ & _ & _ & Hmaps & Htags & _).
  rewrite <- Hcommitted in Hmaps, Htags.
  set (rows := rowOrder (tagMapRows problem tags)).
  assert (snd <$> rows ≡ₚ ProblemTagEntity.id <$> tags) as Hids.
  { subst rows. rewrite Horder. unfold tagMapRows. by rewrite <- list_fmap_compose. }
  apply Permutation_map_inv in Hids as (given & Hgiven & Hperm).
  destruct (findByExistingIds_answers ProblemTagEntity.id problemTagTable
              (snd <$> rows) w') as (result & Hfind & Hanswers).
  exists problem, w', result. split; [exact Hrun|]. split.
  - unfold getProblemTagsByProblem, bind, query. cbn [view].
    rewrite Hmaps, List.filter_app, filter_own_rows, filter_tagMapRows_own. cbn [app].
    fold rows. exact Hfind.
  - rewrite Htags in Hanswers.
    change (map ProblemTagEntity.id given) with (ProblemTagEntity.id <$> given) in Hgiven.
    rewrite Hgiven in Hanswers.
    rewrite (answersById_stored _ _ given result Hkeys) by
      (done || (intros t Ht; apply Hstored; by rewrite Hperm)).
    by rewrite Hperm.
Qed.

End Creation.

(** ** Display id, publicness and judge info *)

Lemma head_filter_unique {A} (P : A → bool) (l : list A) (x : A) :
  x ∈ l → P x = true → (∀ y, y ∈ l → P y = true → y = x) →
  head (List.filter P l) = Some x.
Proof.
  intros Hx HPx Huniq.
  assert (x ∈ List.filter P l) as Hin.
  { apply list_elem_of_In, filter_In. split; [by apply list_elem_of_In | done]. }
  destruct (List.filter P l) as [|y ys] eqn:Hfilter; [by apply elem_of_nil in Hin|].
  simpl. f_equal. apply Huniq.
  - assert (In y (List.filter P l)) as Hy by (rewrite Hfilter; by left).
    apply filter_In in Hy as [Hy _]. by apply list_elem_of_In.
  - assert (In y (List.filter P l)) as Hy by (rewrite Hfilter; by left).
    by apply filter_In in Hy as [_ Hy].
Qed.

Lemma displayIdTaken_free problem db :
  (∀ k q, problemTable db !! k = Some q → k ≠ ProblemEntity.id problem →
          ProblemEntity.displayId q ≠ ProblemEntity.displayId problem) →
  displayIdTaken problem db = false.
Proof.
  intros Hfree. unfold displayIdTaken. apply bool_decide_eq_false.
  intros (k & q & Hkq & Hne & _ & Heq). by apply (Hfree k q).
Qed.

(** X10: assigning a display id that no other problem holds.  The call
    returns true, the stored problem carries the id,
    [findProblemByDisplayId] finds exactly that problem, and a second call
    with the updated entity returns true without sending a statement. *)
Theorem setProblemDisplayId_assigns problem d w :
  faultAfter w = None →
  d ≠ 0 →
  ProblemEntity.displayId problem ≠ Some d →
  (∀ k q, problemTable (committed w) !! k = Some q → k ≠ ProblemEntity.id problem →
          ProblemEntity.displayId q ≠ Some d) →
  let saved := ProblemEntity.withDisplayId problem (Some d) in
  ∃ w',
    setProblemDisplayId problem (Some d) w = (Return true, w')
    ∧ problemTable (committed w')
      = <[ProblemEntity.id problem := saved]> (problemTable (committed w))
    ∧ findProblemByDisplayId d w' = (Return (Some saved), w')
    ∧ setProblemDisplayId saved (Some d) w' = (Return true, w').
Proof.
  intros Hf Hd Hchange Hfree saved.
  assert (falsy (Some d) = false) as Hfalsy by (by apply bool_decide_eq_false).
  assert (setProblemDisplayId problem (Some d) w
          = (Return true, accept w (Repository, SaveProblem saved))) as Hrun.
  { unfold setProblemDisplayId. rewrite Hfalsy.
    case_bool_decide; [done|].
    unfold tryCatch, bind. rewrite execute_accepted; [done|done|].
    cbn [rejects view]. by rewrite displayIdTaken_free. }
  eexists. split; [exact Hrun|].
  cbn [accept store logStatement committed setCommitted applyStatement fst snd
         problemTable setProblemTable].
  split; [done|]. split.
  - unfold findProblemByDisplayId, query.
    cbn [view committed setCommitted applyStatement problemTable setProblemTable
           logStatement].
    f_equal. f_equal. apply head_filter_unique.
    + apply list_elem_of_fmap. exists (ProblemEntity.id problem, saved). split; [done|].
      apply elem_of_map_to_list. by rewrite lookup_insert_eq.
    + by apply bool_decide_eq_true.
    + intros q Hq Hdq. apply bool_decide_eq_true in Hdq.
      apply list_elem_of_fmap in Hq as ([k q'] & -> & Hq).
      apply elem_of_map_to_list in Hq. simpl in *.
      destruct (decide (k = ProblemEntity.id problem)) as [->|Hne].
      * rewrite lookup_insert_eq in Hq. by injection Hq.
      * rewrite lookup_insert_ne in Hq by done. by destruct (Hfree k q' Hq Hne).
  - unfold setProblemDisplayId. rewrite Hfalsy.
    by rewrite bool_decide_eq_true_2.
Qed.

(** X11: clearing.  A falsy display id (null or 0) on a problem that has
    none is a no-op that returns true and sends nothing; on a problem that
    has one, the stored problem loses it, and no uniqueness check can
    refuse that. *)
Theorem setProblemDisplayId_clears problem displayId w :
  falsy displayId = true →
  (ProblemEntity.displayId problem = None →
   setProblemDisplayId problem displayId w = (Return true, w))
  ∧ (is_Some (ProblemEntity.displayId problem) → faultAfter w = None →
     ∃ w',
       setProblemDisplayId problem displayId w = (Return true, w')
       ∧ problemTable (committed w') !! ProblemEntity.id problem
         = Some (ProblemEntity.withDisplayId problem None)).
Proof.
  intros Hfalsy. split.
  - intros Hnone. unfold setProblemDisplayId. rewrite Hfalsy.
    by rewrite bool_decide_eq_true_2.
  - intros [d Hd] Hf. unfold setProblemDisplayId. rewrite Hfalsy.
    rewrite bool_decide_eq_false_2 by (by rewrite Hd).
    unfold tryCatch, bind. rewrite execute_accepted; [|done|].
    + eexists. split; [done|].
      cbn [accept store logStatement committed setCommitted applyStatement fst snd
             problemTable setProblemTable ProblemEntity.id ProblemEntity.withDisplayId].
      by rewrite lookup_insert_eq.
    + cbn [rejects]. by rewrite displayIdTaken_None.
Qed.

(** X12: [setProblemPublic] sends nothing when the flag is already as asked.
    Otherwise, on a storage that accepts the save, the stored problem has
    the new flag and every other attribute as before; once public, every
    actor, present or not, passes VIEW on it, and once non-public an absent
    actor fails VIEW. *)
Theorem setProblemPublic_effect problem isPublic w :
  (ProblemEntity.isPublic problem = isPublic →
   setProblemPublic problem isPublic w = (Return (), w))
  ∧ (ProblemEntity.isPublic problem ≠ isPublic →
     faultAfter w = None →
     displayIdTaken problem (committed w) = false →
     ∃ w' stored,
       setProblemPublic problem isPublic w = (Return (), w')
       ∧ problemTable (committed w') !! ProblemEntity.id problem = Some stored
       ∧ stored = withIsPublic problem isPublic
       ∧ (∀ k, k ≠ ProblemEntity.id problem →
            problemTable (committed w') !! k = problemTable (committed w) !! k)
       ∧ (isPublic = true →
          ∀ acl preference user, userHasPermission acl preference user stored VIEW = true)
       ∧ (∀ acl preference,
            userHasPermission acl preference None stored VIEW = isPublic)).
Proof.
  split.
  - intros Hsame. unfold setProblemPublic. by rewrite bool_decide_eq_true_2.
  - intros Hchange Hf Hfree. unfold setProblemPublic.
    rewrite bool_decide_eq_false_2 by done.
    rewrite execute_accepted; [|done|].
    2:{ cbn [rejects view].
        by rewrite (displayIdTaken_ext _ problem _ (committed w)), Hfree. }
    eexists _, _. split; [done|].
    cbn [accept store logStatement committed setCommitted applyStatement fst snd
           problemTable setProblemTable].
    split; [by rewrite lookup_insert_eq|]. split; [done|]. split; [|split].
    + intros k Hk. by rewrite lookup_insert_ne.
    + intros -> acl preference user. unfold userHasPermission.
      by cbn [withIsPublic ProblemEntity.isPublic].
    + intros acl preference. unfold userHasPermission.
      cbn [withIsPublic ProblemEntity.isPublic]. by destruct isPublic.
Qed.

(** X13: [updateProblemJudgeInfo] throws a TypeError, without sending a
    statement, when the problem has no judge info row; otherwise it
    replaces the judge info of this problem wholesale and touches neither
    the judge info of other problems nor the problem rows. *)
Theorem updateProblemJudgeInfo_effect problem judgeInfo w :
  let pid := ProblemEntity.id problem in
  (problemJudgeInfoTable (committed w) !! pid = None →
   updateProblemJudgeInfo problem judgeInfo w = (Throw TypeError, w))
  ∧ (is_Some (problemJudgeInfoTable (committed w) !! pid) →
     faultAfter w = None →
     ∃ w',
       updateProblemJudgeInfo problem judgeInfo w = (Return (), w')
       ∧ problemJudgeInfoTable (committed w') !! pid = Some judgeInfo
       ∧ (∀ k, k ≠ pid →
            problemJudgeInfoTable (committed w') !! k
            = problemJudgeInfoTable (committed w) !! k)
       ∧ problemTable (committed w') = problemTable (committed w)).
Proof.
  intros pid. subst pid. split.
  - intros Hnone. unfold updateProblemJudgeInfo, bind, query. cbn [view].
    by rewrite Hnone.
  - intros [old Hold] Hf. unfold updateProblemJudgeInfo, bind, query. cbn [view].
    rewrite Hold. rewrite execute_accepted by done.
    eexists. split; [done|].
    cbn [accept store logStatement committed setCommitted applyStatement fst snd
           problemJudgeInfoTable setProblemJudgeInfoTable problemTable].
    split; [by rewrite lookup_insert_eq|]. split; [|done].
    intros k Hk. by rewrite lookup_insert_ne.
Qed.

(** ** Attaching and renaming files *)

Lemma addProblemFile_accepted problem sha256 type filename w file :
  fileTable (committed w) !! sha256 = Some file →
  uuid file ≠ EmptyString →
  faultAfter w = None →
  let old := problemFileTable (committed w) !! (ProblemEntity.id problem, type, filename) in
  ∃ w',
    addProblemFile problem sha256 type filename w = (Return true, w')
    ∧ committed w'
      = applyAll (attachStatements problem sha256 type filename file old) (committed w).
Proof.
  intros Hfile Huuid Hf old.
  set (w0 := setPending [] w).
  set (stmts := attachStatements problem sha256 type filename file old).
  assert (addProblemFile problem sha256 type filename w
          = (Return true,
             setPending []
               (setCommitted (view Transactional (acceptAll ((Transactional,.) <$> stmts) w0))
                  (acceptAll ((Transactional,.) <$> stmts) w0)))) as Hrun.
  { unfold addProblemFile, transaction. fold w0.
    assert (FileService.tryReferenceFile sha256 Transactional w0
            = (Return (Some (uuid file)),
               accept w0 (Transactional, IncrementFileReference sha256))) as Href.
    { unfold FileService.tryReferenceFile, bind at 1, query.
      cbn [view w0 setPending pending committed foldl]. rewrite Hfile.
      by erewrite bind_accepted by (by apply execute_accepted). }
    erewrite bind_accepted by exact Href.
    cbn [falsyHandle default]. rewrite bool_decide_eq_false_2 by done.
    unfold bind at 1, query. cbn [view].
    change (committed (accept w0 (Transactional, IncrementFileReference sha256)))
      with (committed w).
    fold old. subst stmts. unfold attachStatements.
    destruct old as [oldUuid|].
    - unfold FileService.dereferenceFile.
      erewrite bind_accepted by (by apply execute_accepted).
      erewrite bind_accepted by (by apply execute_accepted).
      reflexivity.
    - unfold bind at 1, ret.
      erewrite bind_accepted by (by apply execute_accepted).
      reflexivity. }
  eexists. split; [exact Hrun|].
  cbn [committed setPending setCommitted].
  by rewrite view_acceptAll_same.
Qed.

(** X14: attaching known content, whose handle is not the empty string,
    under a free (type, filename).  The call returns true, a row is created
    that holds the content's handle, every other problem file row is as
    before, the content's reference count grows by one and no other count
    changes. *)
Theorem addProblemFile_new problem sha256 type filename w file :
  let key := (ProblemEntity.id problem, type, filename) in
  fileTable (committed w) !! sha256 = Some file →
  uuid file ≠ EmptyString →
  problemFileTable (committed w) !! key = None →
  faultAfter w = None →
  ∃ w',
    addProblemFile problem sha256 type filename w = (Return true, w')
    ∧ problemFileTable (committed w') !! key = Some (uuid file)
    ∧ (∀ k, k ≠ key → problemFileTable (committed w') !! k = problemFileTable (committed w) !! k)
    ∧ fileTable (committed w') !! sha256
      = Some {| uuid := uuid file; referenceCount := referenceCount file + 1 |}
    ∧ (∀ h, h ≠ sha256 → fileTable (committed w') !! h = fileTable (committed w) !! h).
Proof.
  intros key Hfile Huuid Hfree Hf. subst key.
  destruct (addProblemFile_accepted problem sha256 type filename w file Hfile Huuid Hf)
    as (w' & Hrun & Hcommitted).
  exists w'. split; [done|]. rewrite Hcommitted, Hfree.
  cbn [attachStatements app applyAll foldl applyStatement problemFileTable
         setProblemFileTable setFileTable fileTable].
  repeat split.
  - by rewrite lookup_insert_eq.
  - intros k Hk. by rewrite lookup_insert_ne.
  - by rewrite lookup_alter_eq, Hfile.
  - intros h Hh. by rewrite lookup_alter_ne.
Qed.

(** X15: attaching known content, whose handle is not the empty string,
    under a (type, filename) that is taken.  The one row of that key now
    holds the new handle and the other rows are as before.  The content that
    held the key before loses one reference and is dropped from the store
    when that was its last; the new content gains one.  Attaching again the
    content that the key already holds leaves its count unchanged. *)
Theorem addProblemFile_replaces problem sha256 type filename w file oldUuid :
  let key := (ProblemEntity.id problem, type, filename) in
  fileTable (committed w) !! sha256 = Some file →
  uuid file ≠ EmptyString →
  problemFileTable (committed w) !! key = Some oldUuid →
  faultAfter w = None →
  ∃ w',
    addProblemFile problem sha256 type filename w = (Return true, w')
    ∧ problemFileTable (committed w') !! key = Some (uuid file)
    ∧ (∀ k, k ≠ key → problemFileTable (committed w') !! k = problemFileTable (committed w) !! k)
    ∧ (∀ h f, h ≠ sha256 → fileTable (committed w) !! h = Some f →
         fileTable (committed w') !! h
         = if bool_decide (uuid f = oldUuid) then
             if bool_decide (referenceCount f ≤ 1) then None
             else Some {| uuid := uuid f; referenceCount := referenceCount f - 1 |}
           else Some f)
    ∧ (uuid file ≠ oldUuid →
       fileTable (committed w') !! sha256
       = Some {| uuid := uuid file; referenceCount := referenceCount file + 1 |})
    ∧ (uuid file = oldUuid → 1 ≤ referenceCount file →
       fileTable (committed w') !! sha256 = fileTable (committed w) !! sha256).
Proof.
  intros key Hfile Huuid Hold Hf. subst key.
  destruct (addProblemFile_accepted problem sha256 type filename w file Hfile Huuid Hf)
    as (w' & Hrun & Hcommitted).
  exists w'. split; [done|]. rewrite Hcommitted, Hold.
  cbn [attachStatements app applyAll foldl applyStatement problemFileTable
         setProblemFileTable setFileTable fileTable].
  split; [by rewrite lookup_insert_eq|].
  split; [intros k Hk; by rewrite lookup_insert_ne|].
  split; [|split].
  - intros h f Hh Hrow. rewrite lookup_omap, lookup_alter_ne, Hrow by done. done.
  - intros Hne. rewrite lookup_omap, lookup_alter_eq, Hfile. simpl.
    unfold releaseReference. simpl. by rewrite bool_decide_eq_false_2.
  - intros Heq Hcount. rewrite lookup_omap, lookup_alter_eq, Hfile. simpl.
    unfold releaseReference. simpl.
    rewrite bool_decide_eq_true_2 by done.
    rewrite bool_decide_eq_false_2 by lia.
    destruct file as [u c]. simpl. do 2 f_equal. lia.
Qed.

(** X21: content whose handle is the empty string.  [!uuid] holds of the
    empty string as it does of null: the call returns false and no problem
    file row is created or changed, whether the key is taken or not.  The
    body did not throw, so the transaction commits the one statement that
    was sent, the reference [tryReferenceFile] took: the content's count has
    grown by one although nothing was attached. *)
Theorem addProblemFile_empty_handle problem sha256 type filename w file :
  fileTable (committed w) !! sha256 = Some file →
  uuid file = EmptyString →
  faultAfter w = None →
  ∃ w',
    addProblemFile problem sha256 type filename w = (Return false, w')
    ∧ issued w' = (issued w ++ [(Transactional, IncrementFileReference sha256)])%list
    ∧ problemFileTable (committed w') = problemFileTable (committed w)
    ∧ fileTable (committed w') !! sha256
      = Some {| uuid := uuid file; referenceCount := referenceCount file + 1 |}
    ∧ (∀ h, h ≠ sha256 → fileTable (committed w') !! h = fileTable (committed w) !! h).
Proof.
  intros Hfile Huuid Hf.
  set (w0 := setPending [] w).
  assert (FileService.tryReferenceFile sha256 Transactional w0
          = (Return (Some (uuid file)),
             accept w0 (Transactional, IncrementFileReference sha256))) as Href.
  { unfold FileService.tryReferenceFile, bind at 1, query.
    cbn [view w0 setPending pending committed foldl]. rewrite Hfile.
    by erewrite bind_accepted by (by apply execute_accepted). }
  eexists. split.
  { unfold addProblemFile, transaction. fold w0.
    erewrite bind_accepted by exact Href.
    cbn [falsyHandle]. rewrite bool_decide_eq_true_2 by done.
    unfold ret. reflexivity. }
  cbn [issued committed setPending setCommitted view accept store logStatement w0 pending
         fst snd app foldl applyStatement problemFileTable setFileTable fileTable].
  repeat split.
  - by rewrite lookup_alter_eq, Hfile.
  - intros h Hh. by rewrite lookup_alter_ne.
Qed.

(** X16: renaming a file to a free name and back restores every committed
    table: the rename moves the row and nothing else. *)
Theorem renameProblemFile_round_trip problem type filename newFilename w fileUuid :
  let pid := ProblemEntity.id problem in
  problemFileTable (committed w) !! (pid, type, filename) = Some fileUuid →
  problemFileTable (committed w) !! (pid, type, newFilename) = None →
  faultAfter w = None →
  ∃ w1 w2,
    renameProblemFile problem type filename newFilename w = (Return true, w1)
    ∧ problemFileTable (committed w1) !! (pid, type, newFilename) = Some fileUuid
    ∧ problemFileTable (committed w1) !! (pid, type, filename) = None
    ∧ renameProblemFile problem type newFilename filename w1 = (Return true, w2)
    ∧ committed w2 = committed w.
Proof.
  intros pid Hrow Hfree Hf. subst pid.
  assert (filename ≠ newFilename) as Hne by (intros ->; congruence).
  set (w1 := accept w (Repository,
                UpdateProblemFilename (ProblemEntity.id problem) type filename fileUuid
                  newFilename)).
  assert (problemFileTable (committed w1)
          = <[(ProblemEntity.id problem, type, newFilename) := fileUuid]>
              (delete (ProblemEntity.id problem, type, filename)
                 (problemFileTable (committed w)))) as Htable1.
  { subst w1.
    cbn [accept store logStatement committed setCommitted applyStatement fst snd].
    rewrite Hrow, bool_decide_eq_true_2 by done. done. }
  assert (problemFileTable (committed w1) !! (ProblemEntity.id problem, type, newFilename)
          = Some fileUuid) as Hnew by (by rewrite Htable1, lookup_insert_eq).
  assert (problemFileTable (committed w1) !! (ProblemEntity.id problem, type, filename)
          = None) as Hgone.
  { rewrite Htable1, lookup_insert_ne by congruence. by rewrite lookup_delete_eq. }
  exists w1, (accept w1 (Repository,
                UpdateProblemFilename (ProblemEntity.id problem) type newFilename fileUuid
                  filename)).
  split; [apply renameProblemFile_free; auto|].
  split; [done|]. split; [done|].
  split; [apply renameProblemFile_free; auto|].
  cbn [accept store logStatement committed setCommitted applyStatement fst snd].
  change (committed (logStatement _ _ w1)) with (committed w1).
  rewrite Hnew, bool_decide_eq_true_2 by done.
  assert (committed w1
          = setProblemFileTable
              (λ table, <[(ProblemEntity.id problem, type, newFilename) := fileUuid]>
                          (delete (ProblemEntity.id problem, type, filename) table))
              (committed w)) as ->.
  { subst w1.
    cbn [accept store logStatement committed setCommitted applyStatement fst snd].
    by rewrite Hrow, bool_decide_eq_true_2. }
  destruct (committed w) as [pt ptt pj ps lc tm pf ft]. unfold setProblemFileTable.
  cbn [problemFileTable problemTable problemTagTable problemJudgeInfoTable
         problemSampleTable localizedContentTable problemTagMapTable fileTable] in *.
  f_equal. rewrite delete_insert_eq.
  rewrite delete_id by (by rewrite lookup_delete_ne by congruence).
  by rewrite insert_delete_id.
Qed.

(** ** The problem set listing *)

#[global] Instance problemOrder_total : Total problemOrder.
Proof.
  intros p q. unfold problemOrder, problemSortKey.
  destruct (ProblemEntity.displayId p), (ProblemEntity.displayId q); simpl; lia.
Qed.

#[global] Instance problemOrder_transitive : Transitive problemOrder.
Proof.
  intros p q r. unfold problemOrder, problemSortKey.
  destruct (ProblemEntity.displayId p), (ProblemEntity.displayId q),
    (ProblemEntity.displayId r); simpl; lia.
Qed.






(** ** What a failed statement update leaves behind *)

Lemma contentsOnly_refl changeable db : contentsOnly changeable db db.
Proof. by repeat split. Qed.

Lemma contentsOnly_trans changeable db1 db2 db3 :
  contentsOnly changeable db1 db2 → contentsOnly changeable db2 db3 →
  contentsOnly changeable db1 db3.
Proof.
  intros (H1 & H2 & H3 & H4 & H5 & H6 & H7 & H8) (G1 & G2 & G3 & G4 & G5 & G6 & G7 & G8).
  repeat split; try congruence.
  intros oid ty l Hkey. by rewrite G8, H8.
Qed.

Lemma touchesOnly_keeps {A} changeable (m : M A) :
  keepsCommitted m → touchesOnly changeable m.
Proof. intros Hm w. rewrite Hm. apply contentsOnly_refl. Qed.

Lemma touchesOnly_bind {A B} changeable (m : M A) (k : A → M B) :
  touchesOnly changeable m → (∀ a, touchesOnly changeable (k a)) →
  touchesOnly changeable (bind m k).
Proof.
  intros Hm Hk w. unfold bind. specialize (Hm w).
  destruct (m w) as [[a|e] w']; simpl in *; [|done].
  eapply contentsOnly_trans; [exact Hm | apply Hk].
Qed.

Lemma touchesOnly_forEach {A} changeable (xs : list A) (body : A → M ()) :
  (∀ x, x ∈ xs → touchesOnly changeable (body x)) →
  touchesOnly changeable (forEach xs body).
Proof.
  induction xs as [|x xs IH]; intros Hbody; simpl.
  - apply touchesOnly_keeps, keepsCommitted_ret.
  - apply touchesOnly_bind; [apply Hbody; by left|].
    intros _. apply IH. intros y Hy. apply Hbody. by right.
Qed.

Lemma touchesOnly_upsert (changeable : Z → LocalizedContentType → string → Prop)
    pid ty l data :
  changeable pid ty l →
  touchesOnly changeable
    (LocalizedContentService.createOrUpdate pid ty l data None).
Proof.
  intros Hl w. unfold LocalizedContentService.createOrUpdate, execute.
  cbn [default faultAfter logStatement].
  destruct (faultAfter w) as [[|n]|]; cbn [fmap option_fmap option_map rejects];
    [apply contentsOnly_refl|..];
    cbn [snd store committed setCommitted setFaultAfter logStatement applyStatement];
    (repeat split; try done; intros oid ty' l' Hkey;
       cbn [localizedContentTable setLocalizedContentTable];
       rewrite lookup_insert_ne; [done|]; intros [= ? ? ?]; by subst).
Qed.

Lemma transaction_throws {A} (body : M A) w e :
  (transaction body w).1 = Throw e →
  committed (transaction body w).2 = committed (body (setPending [] w)).2.
Proof.
  unfold transaction. by destruct (body (setPending [] w)) as [[a|e'] w'].
Qed.

(** X19: what a failed [updateProblemStatement] can leave behind.  Whatever
    statement the storage fails on, a call that throws has changed no
    problem row, sample, judge info, tag, tag association or file row, and
    no localized content row other than the rows the request upserts: the
    title row of this problem in a locale for which the request carries a
    title, and its content row in a locale for which the request carries
    content sections.  In particular no row of another object, no tag name,
    and no row of a field the request leaves null has changed. *)
Theorem updateProblemStatement_failure_contained JSON_stringify problem request tags w e :
  (updateProblemStatement JSON_stringify problem request tags w).1 = Throw e →
  let w' := (updateProblemStatement JSON_stringify problem request tags w).2 in
  contentsOnly (upsertedBy problem request) (committed w) (committed w')
  ∧ (∀ oid ty l, oid ≠ ProblemEntity.id problem →
       localizedContentTable (committed w') !! (oid, ty, l)
       = localizedContentTable (committed w) !! (oid, ty, l))
  ∧ (∀ oid l,
       localizedContentTable (committed w') !! (oid, PROBLEM_TAG_NAME, l)
       = localizedContentTable (committed w) !! (oid, PROBLEM_TAG_NAME, l))
  ∧ (∀ l, (∀ e, e ∈ requestLocalizedContents request → updateLocale e = l →
              updateTitle e = None) →
       localizedContentTable (committed w') !! (ProblemEntity.id problem, PROBLEM_TITLE, l)
       = localizedContentTable (committed w) !! (ProblemEntity.id problem, PROBLEM_TITLE, l))
  ∧ (∀ l, (∀ e, e ∈ requestLocalizedContents request → updateLocale e = l →
              updateContentSections e = None) →
       localizedContentTable (committed w') !! (ProblemEntity.id problem, PROBLEM_CONTENT, l)
       = localizedContentTable (committed w) !! (ProblemEntity.id problem, PROBLEM_CONTENT, l)).
Proof.
  intros Hthrown w'.
  assert (contentsOnly (upsertedBy problem request) (committed w) (committed w')) as Honly.
  { subst w'. revert Hthrown. unfold updateProblemStatement.
    match goal with |- context [transaction ?b] => set (body := b) end.
    unfold bind. destruct (transaction body w) as [[a|e'] w'] eqn:Htx; [done|].
    intros _. cbn [snd].
    assert ((transaction body w).1 = Throw e') as Hthrow by (by rewrite Htx).
    apply transaction_throws in Hthrow. rewrite Htx in Hthrow. cbn [snd] in Hthrow.
    rewrite Hthrow.
    assert (touchesOnly (upsertedBy problem request) body) as Hbody.
    { subst body. apply touchesOnly_bind.
      { apply touchesOnly_keeps. destruct (requestSamples request).
        - apply keepsCommitted_bind; [apply keepsCommitted_query|].
          intros [?|]; [apply keepsCommitted_execute | apply keepsCommitted_throw].
        - apply keepsCommitted_ret. }
      intros _. apply touchesOnly_bind.
      { apply touchesOnly_keeps, keepsCommitted_forEach. intros l.
        apply keepsCommitted_bind; [apply keepsCommitted_execute|].
        intros _. apply keepsCommitted_execute. }
      intros _. apply touchesOnly_bind.
      { apply touchesOnly_forEach. intros entry Hentry.
        apply touchesOnly_bind.
        - destruct (updateTitle entry) as [title|] eqn:Htitle;
            [|apply touchesOnly_keeps, keepsCommitted_ret].
          apply touchesOnly_upsert. split; [done|]. exists entry.
          repeat split; [done|]. cbn [givesField]. by rewrite Htitle.
        - intros _. destruct (updateContentSections entry) as [sections|] eqn:Hsections;
            [|apply touchesOnly_keeps, keepsCommitted_ret].
          apply touchesOnly_upsert. split; [done|]. exists entry.
          repeat split; [done|]. cbn [givesField]. by rewrite Hsections. }
      intros _. apply touchesOnly_bind.
      { apply touchesOnly_keeps, keepsCommitted_setProblemTags. }
      intros _. apply touchesOnly_keeps, keepsCommitted_execute. }
    apply (Hbody (setPending [] w)). }
  split; [exact Honly|].
  destruct Honly as (_ & _ & _ & _ & _ & _ & _ & Hrows).
  split; [|split; [|split]].
  - intros oid ty l Hoid. apply Hrows. by intros [? _].
  - intros oid l. apply Hrows. by intros [_ (e0 & _ & _ & ?)].
  - intros l Hnull. apply Hrows. intros [_ (e0 & He & Hl & [x Hx])].
    by rewrite (Hnull e0 He Hl) in Hx.
  - intros l Hnull. apply Hrows. intros [_ (e0 & He & Hl & [x Hx])].
    by rewrite (Hnull e0 He Hl) in Hx.
Qed.

(** ** The other effects of a statement update *)

Lemma deletes_preserve {B} (proj : Database → B) pid ls :
  (∀ objectId t l db,
     proj (applyStatement (DeleteLocalizedContent objectId t (Some l)) db) = proj db) →
  Forall (λ s, ∀ db, proj (applyStatement s db) = proj db) (concat (deletesOf pid <$> ls)).
Proof.
  intros Hdelete. apply Forall_concat_fmap. intros l. repeat constructor; apply Hdelete.
Qed.

(** X20: samples, tags and judge info in [updateProblemStatement].  With
    samples in the request and no sample row stored, the call throws a
    TypeError before sending any statement.  When the storage accepts the
    call, the sample of the problem is the request's when one is given and
    is untouched when it is null; the tag associations of the problem are
    one per given tag; the stored problem is the one passed with the
    requested locales; and judge infos, the samples, tag associations and
    rows of other problems are as before. *)
Theorem updateProblemStatement_other_effects JSON_stringify problem request tags w :
  let pid := ProblemEntity.id problem in
  let outcome := updateProblemStatement JSON_stringify problem request tags w in
  (is_Some (requestSamples request) →
   problemSampleTable (committed w) !! pid = None →
   outcome.1 = Throw TypeError
   ∧ issued outcome.2 = issued w
   ∧ committed outcome.2 = committed w)
  ∧ (faultAfter w = None →
     (is_Some (requestSamples request) →
      is_Some (problemSampleTable (committed w) !! pid)) →
     displayIdTaken problem (committed w) = false →
     outcome.1 = Return true
     ∧ problemSampleTable (committed outcome.2) !! pid
       = match requestSamples request with
         | Some data => Some data
         | None => problemSampleTable (committed w) !! pid
         end
     ∧ (∀ k, k ≠ pid →
          problemSampleTable (committed outcome.2) !! k
          = problemSampleTable (committed w) !! k)
     ∧ problemJudgeInfoTable (committed outcome.2) = problemJudgeInfoTable (committed w)
     ∧ List.filter (λ row, bool_decide (row.1 = pid))
         (problemTagMapTable (committed outcome.2))
       = (λ problemTag, (pid, ProblemTagEntity.id problemTag)) <$> tags
     ∧ List.filter (λ row, bool_decide (row.1 ≠ pid))
         (problemTagMapTable (committed outcome.2))
       = List.filter (λ row, bool_decide (row.1 ≠ pid)) (problemTagMapTable (committed w))
     ∧ problemTable (committed outcome.2) !! pid
       = Some (ProblemEntity.withLocales problem
                 (updateLocale <$> requestLocalizedContents request))
     ∧ (∀ k, k ≠ pid →
          problemTable (committed outcome.2) !! k = problemTable (committed w) !! k)).
Proof.
  intros pid outcome. subst pid outcome. split.
  - intros [data Hdata] Hnone.
    unfold updateProblemStatement, transaction, bind, query.
    rewrite Hdata. cbn [view setPending pending committed foldl]. rewrite Hnone.
    by cbn.
  - intros Hf Hsample Htaken.
    destruct (updateProblemStatement_accepted JSON_stringify problem request tags w
                Hf Hsample Htaken) as (w' & -> & Hcommitted & _).
    cbn [fst snd]. split; [done|]. rewrite Hcommitted.
    rewrite problems_after_update.
    unfold transactionStatements, upsertStatements. rewrite !applyAll_app.
    change (applyAll [SaveProblem ?p] ?x) with (applyStatement (SaveProblem p) x).
    cbn [applyStatement setProblemTable problemSampleTable problemJudgeInfoTable
           problemTagMapTable].
    assert (∀ db, problemSampleTable (applyAll (sampleStatements problem request) db)
                  = match requestSamples request with
                    | Some data => <[ProblemEntity.id problem := data]> (problemSampleTable db)
                    | None => problemSampleTable db
                    end) as Hsamples.
    { intros db. unfold sampleStatements. by destruct (requestSamples request). }
    repeat split.
    + rewrite (applyAll_preserves problemSampleTable (tagStatements _ _))
        by (by apply tagStatements_preserve).
      rewrite (applyAll_preserves problemSampleTable (concat _))
        by (by apply deletes_preserve).
      rewrite Hsamples.
      rewrite (applyAll_preserves problemSampleTable (concat _))
        by (by apply upserts_preserve).
      destruct (requestSamples request); [by rewrite lookup_insert_eq | done].
    + intros k Hk.
      rewrite (applyAll_preserves problemSampleTable (tagStatements _ _))
        by (by apply tagStatements_preserve).
      rewrite (applyAll_preserves problemSampleTable (concat _))
        by (by apply deletes_preserve).
      rewrite Hsamples.
      rewrite (applyAll_preserves problemSampleTable (concat _))
        by (by apply upserts_preserve).
      destruct (requestSamples request); [by rewrite lookup_insert_ne | done].
    + rewrite (applyAll_preserves problemJudgeInfoTable (tagStatements _ _))
        by (by apply tagStatements_preserve).
      rewrite (applyAll_preserves problemJudgeInfoTable (concat _))
        by (by apply deletes_preserve).
      rewrite (applyAll_preserves problemJudgeInfoTable (sampleStatements _ _))
        by (unfold sampleStatements; destruct (requestSamples request); repeat constructor).
      by rewrite (applyAll_preserves problemJudgeInfoTable (concat _))
        by (by apply upserts_preserve).
    + rewrite problemTagMapTable_tagStatements, List.filter_app, filter_own_rows.
      apply filter_tagMapRows_own.
    + rewrite problemTagMapTable_tagStatements, List.filter_app, filter_other_rows,
        filter_tagMapRows_other, app_nil_r.
      rewrite (applyAll_preserves problemTagMapTable (concat _))
        by (by apply deletes_preserve).
      rewrite (applyAll_preserves problemTagMapTable (sampleStatements _ _))
        by (unfold sampleStatements; destruct (requestSamples request); repeat constructor).
      by rewrite (applyAll_preserves problemTagMapTable (concat _))
        by (by apply upserts_preserve).
    + by rewrite lookup_insert_eq.
    + intros k Hk. by rewrite lookup_insert_ne.
Qed.

(** ** Instances of the further properties *)

Lemma modify_implies_view_witness :
  userHasPermission noAccess strictPreference (Some owner10) problem1 VIEW = true.
Proof.
  apply (modify_implies_view noAccess strictPreference (Some owner10) problem1).
  reflexivity.
Defined.

Lemma admin_or_privileged_passes_everything_witness :
  userHasPermission noAccess strictPreference (Some adminUser) problem1 DELETE = true.
Proof.
  apply (admin_or_privileged_passes_everything noAccess strictPreference adminUser problem1
           DELETE).
  left. reflexivity.
Defined.

Lemma anonymous_only_views_public_witness :
  userHasPermission noAccess strictPreference None (withIsPublic problem1 true) VIEW = true.
Proof.
  apply (proj1 (anonymous_only_views_public noAccess strictPreference
                  (withIsPublic problem1 true) VIEW)).
  split; reflexivity.
Defined.

Lemma plain_user_management_rights_witness :
  userHasPermission noAccess strictPreference (Some owner10) problem1 DELETE = false.
Proof.
  refine (proj1 (proj2 (plain_user_management_rights noAccess strictPreference owner10
                          problem1 _ _))); reflexivity.
Defined.

Lemma createProblem_atomic_witness :
  committed (createProblem exampleStringify exampleJudgeInfo owner10 "Traditional"
               statement_en [tag7] (setFaultAfter (Some 3%nat) w_empty)).2
  = committed (setFaultAfter (Some 3%nat) w_empty).
Proof.
  apply (createProblem_atomic exampleStringify exampleJudgeInfo owner10 "Traditional"
           statement_en [tag7] (setFaultAfter (Some 3%nat) w_empty) StorageFailure).
  vm_compute. reflexivity.
Defined.

Lemma addProblemFile_atomic_witness :
  committed (addProblemFile problem1 "sha-b" "TestData" "a.in" (w_store (Some 2%nat))).2
  = committed (w_store (Some 2%nat)).
Proof.
  apply (addProblemFile_atomic problem1 "sha-b" "TestData" "a.in" (w_store (Some 2%nat))
           StorageFailure).
  vm_compute. reflexivity.
Defined.

Lemma createProblem_creates_witness :
  ∃ problem w',
    createProblem exampleStringify exampleJudgeInfo owner10 "Traditional" statement_en [tag7]
      w_empty = (Return problem, w')
    ∧ problem = problem1.
Proof.
  destruct (createProblem_creates exampleStringify exampleJudgeInfo owner10 "Traditional"
              statement_en [tag7] w_empty eq_refl) as (problem & w' & Hrun & Hproblem & _).
  exists problem, w'. split; [exact Hrun | exact Hproblem].
Defined.

Lemma createProblem_then_read_witness :
  ∃ problem w',
    createProblem exampleStringify exampleJudgeInfo owner10 "Traditional" statement_en [tag7]
      w_empty = (Return problem, w')
    ∧ getProblemLocalizedTitle problem "en" w' = (Return (Some "A+B Problem"), w').
Proof.
  destruct (createProblem_then_read exampleStringify exampleJudgeInfo owner10 "Traditional"
              statement_en [tag7] w_empty []
              {| locale := "en"; title := "A+B Problem";
                 contentSections := [ {| sectionName := "Description"; text := "Add." |} ] |}
              [])
    as (problem & w' & Hrun & Hread & _).
  - reflexivity.
  - reflexivity.
  - intros e' He'. by apply elem_of_nil in He'.
  - exists problem, w'. split; [exact Hrun | exact Hread].
Defined.

Lemma createProblem_then_getProblemTagsByProblem_witness :
  ∃ problem w' result,
    createProblem exampleStringify exampleJudgeInfo owner10 "Traditional" statement_en
      [tag8; tag7] w_tags = (Return problem, w')
    ∧ getProblemTagsByProblem reverse problem w' = (Return result, w')
    ∧ result ≡ₚ [Some tag8; Some tag7].
Proof.
  apply (createProblem_then_getProblemTagsByProblem exampleStringify exampleJudgeInfo reverse
           owner10 "Traditional" statement_en [tag8; tag7] w_tags).
  - intros rows. apply reverse_Permutation.
  - reflexivity.
  - apply (bool_decide_unpack _). vm_compute. exact I.
  - intros k t Hk. cbn in Hk.
    apply lookup_insert_Some in Hk as [[<- <-]|[_ Hk]]; [reflexivity|].
    apply lookup_singleton_Some in Hk as [<- <-]. reflexivity.
  - intros t Ht. repeat (apply elem_of_cons in Ht as [->|Ht]; [reflexivity|]).
    by apply elem_of_nil in Ht.
Defined.

Lemma setProblemDisplayId_assigns_witness :
  ∃ w',
    setProblemDisplayId problem2 (Some 7) (w_displayId None) = (Return true, w')
    ∧ findProblemByDisplayId 7 w'
      = (Return (Some (ProblemEntity.withDisplayId problem2 (Some 7))), w').
Proof.
  destruct (setProblemDisplayId_assigns problem2 7 (w_displayId None))
    as (w' & Hrun & _ & Hfind & _).
  - reflexivity.
  - discriminate.
  - discriminate.
  - intros k q Hk Hne. cbn in Hk.
    apply lookup_insert_Some in Hk as [[<- _]|[_ Hk]]; [done|].
    apply lookup_insert_Some in Hk as [[_ <-]|[_ Hk]]; [discriminate|].
    by rewrite lookup_empty in Hk.
  - exists w'. split; [exact Hrun | exact Hfind].
Defined.

Lemma setProblemDisplayId_clears_witness :
  setProblemDisplayId problem2 (Some 0) (w_displayId None)
  = (Return true, w_displayId None).
Proof.
  apply (proj1 (setProblemDisplayId_clears problem2 (Some 0) (w_displayId None) eq_refl)).
  reflexivity.
Defined.

Lemma setProblemPublic_effect_witness :
  ∃ w' stored,
    setProblemPublic problem1 true w_created = (Return (), w')
    ∧ problemTable (committed w') !! 1 = Some stored
    ∧ userHasPermission noAccess strictPreference None stored VIEW = true.
Proof.
  destruct (proj2 (setProblemPublic_effect problem1 true w_created))
    as (w' & stored & Hrun & Hrow & _ & _ & _ & Hanonymous).
  - discriminate.
  - reflexivity.
  - vm_compute. reflexivity.
  - exists w', stored. split; [exact Hrun|]. split; [exact Hrow|]. apply Hanonymous.
Defined.

Lemma updateProblemJudgeInfo_effect_witness :
  ∃ w',
    updateProblemJudgeInfo problem1 "timeLimit: 1000" w_created = (Return (), w')
    ∧ problemJudgeInfoTable (committed w') !! 1 = Some "timeLimit: 1000".
Proof.
  destruct (proj2 (updateProblemJudgeInfo_effect problem1 "timeLimit: 1000" w_created))
    as (w' & Hrun & Hrow & _).
  - vm_compute. by eexists.
  - reflexivity.
  - exists w'. split; [exact Hrun | exact Hrow].
Defined.

Lemma addProblemFile_new_witness :
  ∃ w',
    addProblemFile problem1 "sha-b" "TestData" "b.in" (w_store None) = (Return true, w')
    ∧ problemFileTable (committed w') !! (1, "TestData", "b.in") = Some "uuid-b"
    ∧ fileTable (committed w') !! "sha-b"
      = Some {| uuid := "uuid-b"; referenceCount := 3 |}.
Proof.
  destruct (addProblemFile_new problem1 "sha-b" "TestData" "b.in" (w_store None)
              {| uuid := "uuid-b"; referenceCount := 2 |})
    as (w' & Hrun & Hrow & _ & Hcount & _).
  - vm_compute. reflexivity.
  - discriminate.
  - vm_compute. reflexivity.
  - reflexivity.
  - exists w'. split; [exact Hrun|]. split; [exact Hrow | exact Hcount].
Defined.

Lemma addProblemFile_replaces_witness :
  ∃ w',
    addProblemFile problem1 "sha-b" "TestData" "a.in" (w_store None) = (Return true, w')
    ∧ problemFileTable (committed w') !! (1, "TestData", "a.in") = Some "uuid-b"
    ∧ fileTable (committed w') !! "sha-a" = None.
Proof.
  destruct (addProblemFile_replaces problem1 "sha-b" "TestData" "a.in" (w_store None)
              {| uuid := "uuid-b"; referenceCount := 2 |} "uuid-a")
    as (w' & Hrun & Hrow & _ & Hold & _).
  - vm_compute. reflexivity.
  - discriminate.
  - vm_compute. reflexivity.
  - reflexivity.
  - exists w'. split; [exact Hrun|]. split; [exact Hrow|].
    apply (Hold "sha-a" {| uuid := "uuid-a"; referenceCount := 1 |}).
    + discriminate.
    + vm_compute. reflexivity.
Defined.

Lemma addProblemFile_empty_handle_witness :
  ∃ w',
    addProblemFile problem1 "sha-e" "TestData" "e.in" w_empty_handle = (Return false, w')
    ∧ problemFileTable (committed w') = problemFileTable (committed w_empty_handle)
    ∧ fileTable (committed w') !! "sha-e"
      = Some {| uuid := EmptyString; referenceCount := 2 |}.
Proof.
  destruct (addProblemFile_empty_handle problem1 "sha-e" "TestData" "e.in" w_empty_handle
              {| uuid := EmptyString; referenceCount := 1 |})
    as (w' & Hrun & _ & Hrows & Hcount & _).
  - vm_compute. reflexivity.
  - reflexivity.
  - reflexivity.
  - exists w'. split; [exact Hrun|]. split; [exact Hrows | exact Hcount].
Defined.

Lemma renameProblemFile_round_trip_witness :
  ∃ w1 w2,
    renameProblemFile problem1 "TestData" "a.in" "c.in" w_files = (Return true, w1)
    ∧ renameProblemFile problem1 "TestData" "c.in" "a.in" w1 = (Return true, w2)
    ∧ committed w2 = committed w_files.
Proof.
  destruct (renameProblemFile_round_trip problem1 "TestData" "a.in" "c.in" w_files "uuid-a")
    as (w1 & w2 & Hthere & _ & _ & Hback & Hsame).
  - vm_compute. reflexivity.
  - vm_compute. reflexivity.
  - reflexivity.
  - exists w1, w2. split; [exact Hthere|]. split; [exact Hback | exact Hsame].
Defined.



Lemma updateProblemStatement_failure_contained_witness :
  let w := w_named (Some 2%nat) in
  let w' := (updateProblemStatement exampleStringify problem1 request_title_only [tag7] w).2 in
  localizedContentTable (committed w') !! (1, PROBLEM_TAG_NAME, "en") = Some "math"
  ∧ localizedContentTable (committed w') !! (1, PROBLEM_CONTENT, "en")
    = localizedContentTable (committed w) !! (1, PROBLEM_CONTENT, "en")
  ∧ problemTable (committed w') = problemTable (committed w).
Proof.
  intros w w'.
  destruct (updateProblemStatement_failure_contained exampleStringify problem1
              request_title_only [tag7] w StorageFailure)
    as ((Hproblems & _) & _ & Hnames & _ & Hcontents).
  - vm_compute. reflexivity.
  - split; [|split].
    + subst w'. rewrite (Hnames 1 "en"). vm_compute. reflexivity.
    + apply (Hcontents "en"). intros e He _.
      apply list_elem_of_singleton in He. by subst e.
    + exact Hproblems.
Defined.

Lemma updateProblemStatement_other_effects_witness :
  (updateProblemStatement exampleStringify problem1 request_title_only [tag7] w_created).1
  = Return true.
Proof.
  refine (proj1 (proj2 (updateProblemStatement_other_effects exampleStringify problem1
                          request_title_only [tag7] w_created) _ _ _)).
  - reflexivity.
  - intros [data Hdata]. discriminate.
  - vm_compute. reflexivity.
Defined.
